(** * Tree Structure API: the tree-mutation core

    A shallow embedding of [models/TreeNode.js], the bootstrap of [app.js]
    and the six handlers of [routes/treeRoutes.js], with the properties of
    insert, update, delete, move and reorder proved over it.  Ids and
    orderings are integers; the [createdAt] and [updatedAt] columns that
    the ORM adds are left out.

    The backing table [tree_nodes] is a finite map from the primary key
    [id] to the remaining columns.  Every handler is a function from the
    request parameters and the table to a response and the table
    afterwards.  The two recursive helpers of the source
    ([deleteNodeAndDescendants], [isDescendant]) recurse along the parent
    relation of the table, which may be cyclic, so they take a recursion
    budget and return [None] when it runs out. *)

From stdpp Require Import gmap strings list sorting.

Local Open Scope Z_scope.

(** ** The model [TreeNode] (models/TreeNode.js) *)

(** The columns of a row besides the primary key. *)
Record Row : Type := mkRow {
  title : string;
  parent_node_id : option Z;   (* INTEGER, allowNull: true *)
  ordering : Z                 (* INTEGER *)
}.

Global Instance Row_eq_dec : EqDecision Row.
Proof. solve_decision. Defined.

(** A model instance, as [findByPk] and [findAll] return it: the primary
    key and the columns. *)
Abbreviation TreeNode := (Z * Row)%type.

Definition id (n : TreeNode) : Z := n.1.

(** The table together with the counter SQLite keeps for an
    [INTEGER PRIMARY KEY AUTOINCREMENT] column (the largest key ever
    used). *)
Record Store : Type := mkStore {
  rows : gmap Z Row;
  sequence : Z
}.

Definition set_title (t : string) (r : Row) : Row :=
  mkRow t (parent_node_id r) (ordering r).

Definition set_ordering (o : Z) (r : Row) : Row :=
  mkRow (title r) (parent_node_id r) o.

Definition set_parent_ordering (p : option Z) (o : Z) (r : Row) : Row :=
  mkRow (title r) p o.

(** ** Values of a request body *)

(** A value as the JSON body of a request gives it, or as a column of a
    row holds it.  The move handler does not parse [new_parent_node_id]:
    it compares the value with [===] and hands it to the queries as it
    is.  In a comparison with an INTEGER column the database reads some
    values that are no numbers as keys (the string "2" as 2); [key] is
    that key, if there is one. *)
Inductive JsValue : Type :=
| JsNull                     (* null *)
| JsNumber (k : Z)           (* a number that is an integer *)
| JsOther (key : option Z).  (* a string, a boolean, an absent field, ... *)

(** The key the database takes the value for. *)
Definition key_of (v : JsValue) : option Z :=
  match v with
  | JsNull => None
  | JsNumber k => Some k
  | JsOther key => key
  end.

(** The value of a nullable INTEGER column. *)
Definition column (o : option Z) : JsValue :=
  match o with
  | None => JsNull
  | Some k => JsNumber k
  end.

(** [v === k] for a number [k]. *)
Definition strict_equal (v : JsValue) (k : Z) : bool :=
  match v with
  | JsNumber j => bool_decide (j = k)
  | _ => false
  end.

(** ** The queries and statements the handlers issue *)

Module TreeNode.

(** [TreeNode.findByPk(id)]: the instance, or [None] for [null]. *)
Definition findByPk (k : Z) (db : Store) : option TreeNode :=
  r ← rows db !! k; Some (k, r).

(** [TreeNode.findByPk(v)] for a value of the body. *)
Definition findByValue (v : JsValue) (db : Store) : option TreeNode :=
  k ← key_of v; findByPk k db.

(** [TreeNode.findAll({ where: { parent_node_id } })], in table order. *)
Definition findAll (parent : option Z) (db : Store) : list TreeNode :=
  filter (λ n : TreeNode, parent_node_id n.2 = parent) (map_to_list (rows db)).

(** [order: [["ordering", "ASC"]]].  SQL leaves the order of rows with
    equal [ordering] open; SQLite's sorter keeps them in the order of its
    scan of the table, which is the order of the keys. *)
Definition by_ordering (a b : TreeNode) : Prop :=
  ordering a.2 < ordering b.2 ∨ (ordering a.2 = ordering b.2 ∧ a.1 ≤ b.1).

Global Instance by_ordering_dec a b : Decision (by_ordering a b).
Proof. unfold by_ordering. apply _. Defined.

(** [TreeNode.findAll({ where: { parent_node_id }, order: [["ordering", "ASC"]] })]:
    in ascending [ordering], rows with equal [ordering] in ascending key. *)
Definition findAll_ordered (parent : option Z) (db : Store) : list TreeNode :=
  merge_sort by_ordering (findAll parent db).

(** [TreeNode.count({ where: { parent_node_id } })]. *)
Definition count (parent : option Z) (db : Store) : Z :=
  Z.of_nat (length (findAll parent db)).

(** The largest key of the table, [None] when the table is empty. *)
Definition max_rowid (t : gmap Z Row) : option Z :=
  foldr (λ (n : TreeNode) acc,
           match acc with
           | None => Some n.1
           | Some m => Some (Z.max n.1 m)
           end) None (map_to_list t).

(** The key AUTOINCREMENT gives the next row: one more than the largest
    key in the table (1 for an empty table), and more than every key
    used before. *)
Definition next_rowid (db : Store) : Z :=
  Z.max (from_option Z.succ 1 (max_rowid (rows db))) (sequence db + 1).

(** [TreeNode.create({ title, parent_node_id, ordering })]: the new
    instance and the table with its row. *)
Definition create (r : Row) (db : Store) : TreeNode * Store :=
  let k := next_rowid db in
  ((k, r), mkStore (<[k := r]> (rows db)) k).

(** [TreeNode.create({ id, ... })] with the key given (the bootstrap). *)
Definition create_with_id (k : Z) (r : Row) (db : Store) : TreeNode * Store :=
  ((k, r), mkStore (<[k := r]> (rows db)) (Z.max (sequence db) k)).

(** [TreeNode.destroy({ where: { id } })]. *)
Definition destroy (k : Z) (db : Store) : Store :=
  mkStore (delete k (rows db)) (sequence db).

(** [TreeNode.update({ ordering: i }, { where: { id } })]. *)
Definition update_ordering (i : Z) (k : Z) (db : Store) : Store :=
  mkStore (alter (set_ordering i) k (rows db)) (sequence db).

(** [node.save()] after assignments to some columns of the instance:
    an UPDATE of those columns ([changed]) on the row with the
    instance's key. *)
Definition save (changed : Row → Row) (n : TreeNode) (db : Store) : Store :=
  mkStore (alter changed (id n) (rows db)) (sequence db).

End TreeNode.

(** ** Responses *)

Inductive Body : Type :=
| ErrorBody (error : string)                                 (* { error } *)
| MessageBody (message : string)                             (* { message } *)
| NodeBody (node : TreeNode)                                 (* the node *)
| NodeChildrenBody (node : TreeNode) (children : list TreeNode). (* { node, children } *)

Record Response : Type := mkResponse {
  status : Z;
  body : Body
}.

(** The error kinds of the specification, as the responses the handlers
    send for them. *)
Definition NotFound : Response := mkResponse 404 (ErrorBody "Node not found.").
Definition MoveNotFound : Response :=
  mkResponse 404 (ErrorBody "Node or new parent node not found.").
Definition InvalidParent : Response :=
  mkResponse 400 (ErrorBody "Parent node does not exist.").
Definition DeleteForbidden : Response :=
  mkResponse 400 (ErrorBody "Cannot delete the root node.").
Definition MoveForbidden : Response :=
  mkResponse 400 (ErrorBody "Cannot move the root node.").
Definition Cycle : Response :=
  mkResponse 400 (ErrorBody "Cannot move a node to its own descendant.").
Definition InvalidOrdering : Response :=
  mkResponse 400 (ErrorBody "Invalid new ordering value.").
Definition Deleted : Response :=
  mkResponse 200 (MessageBody "Node and its descendants have been deleted.").
Definition Moved : Response := mkResponse 200 (MessageBody "Node has been moved.").
Definition Reordered : Response :=
  mkResponse 200 (MessageBody "Node ordering has been updated.").
Definition MoveError : Response := mkResponse 500 (ErrorBody "Error moving node.").

(** ** Bootstrap (app.js) *)

Definition root_id : Z := 1.

Definition root_row : Row := mkRow "Root Node" None 0.

Definition empty_store : Store := mkStore ∅ 0.

(** [sequelize.sync().then(...)]: create the root when it is absent. *)
Definition ensure_root (db : Store) : Store :=
  match TreeNode.findByPk root_id db with
  | Some _ => db
  | None => (TreeNode.create_with_id root_id root_row db).2
  end.

(** ** The handlers (routes/treeRoutes.js) *)

(** [router.get("/:id")] *)
Definition GetNode (nodeId : Z) (db : Store) : Response :=
  match TreeNode.findByPk nodeId db with
  | None => NotFound
  | Some node =>
      let children := TreeNode.findAll_ordered (Some nodeId) db in
      mkResponse 200 (NodeChildrenBody node children)
  end.

(** [router.post("/")] *)
Definition InsertNode (parent_node_id : Z) (title : string) (db : Store)
  : Response * Store :=
  match TreeNode.findByPk parent_node_id db with
  | None => (InvalidParent, db)
  | Some parentNode =>
      let siblingCount := TreeNode.count (Some parent_node_id) db in
      let ordering := siblingCount in
      let '(newNode, db') :=
        TreeNode.create (mkRow title (Some parent_node_id) ordering) db in
      (mkResponse 201 (NodeBody newNode), db')
  end.

(** [router.put("/:id")] *)
Definition UpdateNode (nodeId : Z) (title : string) (db : Store)
  : Response * Store :=
  match TreeNode.findByPk nodeId db with
  | None => (NotFound, db)
  | Some node =>
      let db' := TreeNode.save (set_title title) node db in
      (mkResponse 200 (NodeBody (id node, set_title title node.2)), db')
  end.

(** [router.delete("/:id")] *)

(** [for (const x of l) { await f(x) }] over a store, [None] when a call
    runs out of budget. *)
Fixpoint for_each {A : Type} (f : A → Store → option Store) (l : list A)
    (db : Store) : option Store :=
  match l with
  | [] => Some db
  | x :: l => db' ← f x db; for_each f l db'
  end.

Fixpoint deleteNodeAndDescendants (fuel : nat) (k : Z) (db : Store)
  : option Store :=
  match fuel with
  | O => None
  | S fuel =>
      let children := TreeNode.findAll (Some k) db in
      db' ← for_each (λ child, deleteNodeAndDescendants fuel (id child)) children db;
      Some (TreeNode.destroy k db')
  end.

Definition DeleteNode (fuel : nat) (nodeId : Z) (db : Store)
  : option (Response * Store) :=
  if decide (nodeId = 1) then Some (DeleteForbidden, db)
  else
    db' ← deleteNodeAndDescendants fuel nodeId db;
    Some (Deleted, db').

(** [router.put("/:id/move")] *)

(** How a call ends: with a value, or with an exception. *)
Inductive Completion (A : Type) : Type :=
| Returned (a : A)
| Threw.
Arguments Returned {A} a.
Arguments Threw {A}.

(** [isDescendant(parentNodeId, childId)].  The first call gets the
    value of the body, the later ones the [parent_node_id] of a row;
    [childId] is the parsed id of the path.  [parent.parent_node_id] on
    the [null] that [findByPk] gives for a missing row throws. *)
Fixpoint isDescendant (fuel : nat) (db : Store) (parentNodeId : JsValue)
    (childId : Z) : option (Completion bool) :=
  match fuel with
  | O => None
  | S fuel =>
      match parentNodeId with
      | JsNull => Some (Returned false)
      | _ =>
          if strict_equal parentNodeId childId then Some (Returned true)
          else
            match TreeNode.findByValue parentNodeId db with
            | None => Some Threw
            | Some parent =>
                isDescendant fuel db (column (parent_node_id parent.2)) childId
            end
      end
  end.

(** [nodeId] is [parseInt(req.params.id)], [new_parent_node_id] the value
    of the body.  The value is written to the INTEGER column
    [parent_node_id] and used in the WHERE clause of the count, where the
    database takes it for its key. *)
Definition MoveNode (fuel : nat) (nodeId : Z) (new_parent_node_id : JsValue)
    (db : Store) : option (Response * Store) :=
  match TreeNode.findByPk nodeId db, TreeNode.findByValue new_parent_node_id db with
  | Some node, Some newParentNode =>
      if decide (nodeId = 1) then Some (MoveForbidden, db)
      else
        createsCycle ← isDescendant fuel db new_parent_node_id nodeId;
        match createsCycle with
        | Threw => Some (MoveError, db)
        | Returned true => Some (Cycle, db)
        | Returned false =>
            let siblingCount := TreeNode.count (key_of new_parent_node_id) db in
            Some (Moved,
                  TreeNode.save
                    (set_parent_ordering (key_of new_parent_node_id) siblingCount)
                    node db)
        end
  | _, _ => Some (MoveNotFound, db)
  end.

(** [router.put("/:id/reorder")] *)

(** The index [Array.prototype.splice] starts at: a negative [start]
    counts from the end, and the result is clamped to the array. *)
Definition splice_start (start : Z) (len : nat) : nat :=
  if start <? 0 then Z.to_nat (Z.max (Z.of_nat len + start) 0)
  else Z.to_nat (Z.min start (Z.of_nat len)).

(** [l.splice(start, 1)] *)
Definition splice_remove {A : Type} (start : Z) (l : list A) : list A :=
  delete (splice_start start (length l)) l.

(** [l.splice(start, 0, x)] *)
Definition splice_insert {A : Type} (start : Z) (x : A) (l : list A) : list A :=
  let k := splice_start start (length l) in
  take k l ++ x :: drop k l.

(** [for (let i = 0; i < siblings.length; i++)
       await TreeNode.update({ ordering: i }, { where: { id: siblings[i].id } })],
    from index [i] on. *)
Fixpoint renumber (i : nat) (siblings : list TreeNode) (db : Store) : Store :=
  match siblings with
  | [] => db
  | n :: siblings =>
      renumber (S i) siblings (TreeNode.update_ordering (Z.of_nat i) (id n) db)
  end.

Definition ReorderNode (nodeId new_ordering : Z) (db : Store) : Response * Store :=
  match TreeNode.findByPk nodeId db with
  | None => (NotFound, db)
  | Some node =>
      let siblings := TreeNode.findAll_ordered (parent_node_id node.2) db in
      if (new_ordering <? 0) || (Z.of_nat (length siblings) <=? new_ordering)
      then (InvalidOrdering, db)
      else
        let siblings := splice_remove (ordering node.2) siblings in
        let siblings := splice_insert new_ordering node siblings in
        (Reordered, renumber 0 siblings db)
  end.

(** ** The notions of the specification *)

(** [x] is [a] or a descendant of [a]: [a] is on the chain of parents
    that starts at [x]. *)
Inductive descendant_or_self (db : Store) (a : Z) : Z → Prop :=
| dos_self : descendant_or_self db a a
| dos_child x r p :
    rows db !! x = Some r →
    parent_node_id r = Some p →
    descendant_or_self db a p →
    descendant_or_self db a x.

(** The chain of parents from [x] ends at a [null] after [d] rows. *)
Inductive depth_is (db : Store) : option Z → nat → Prop :=
| depth_null : depth_is db None 0
| depth_row x r d :
    rows db !! x = Some r →
    depth_is db (parent_node_id r) d →
    depth_is db (Some x) (S d).

(** The parent relation is that of a tree (or forest): from every row
    the chain of parents ends at a row without parent. *)
Definition tree_wf (db : Store) : Prop :=
  ∀ x r, rows db !! x = Some r → ∃ d, depth_is db (Some x) d.

(** The length of the chain of parents, walked with a budget. *)
Fixpoint depth (fuel : nat) (db : Store) (x : option Z) : option nat :=
  match fuel with
  | O => None
  | S fuel =>
      match x with
      | None => Some O
      | Some k => r ← rows db !! k; S <$> depth fuel db (parent_node_id r)
      end
  end.

(** [tree_wf], checked by walking from every row. *)
Definition tree_wfb (db : Store) : bool :=
  forallb (λ n : TreeNode,
             bool_decide (is_Some (depth (S (size (rows db))) db (Some (id n)))))
          (map_to_list (rows db)).

(** A rank for the parent relation: every row ranks below its parent. *)
Definition ranked (rank : Z → nat) (db : Store) : Prop :=
  ∀ x r p, rows db !! x = Some r → parent_node_id r = Some p →
           (rank x < rank p)%nat.

(** [t] is [s] without the rows whose key satisfies [D]. *)
Definition removes (s t : Store) (D : Z → Prop) : Prop :=
  rows t ⊆ rows s ∧
  sequence t = sequence s ∧
  (∀ x, D x → rows t !! x = None) ∧
  (∀ x, is_Some (rows s !! x) → rows t !! x = None → D x).

(** The density invariant for the children of [parent]: their orderings
    are 0, 1, ..., n-1, each once. *)
Definition dense (db : Store) (parent : option Z) : Prop :=
  (λ n : TreeNode, ordering n.2) <$> TreeNode.findAll parent db
    ≡ₚ seqZ 0 (TreeNode.count parent db).

Global Instance dense_dec db parent : Decision (dense db parent).
Proof. unfold dense. apply _. Defined.

(** The instances of a list with their index as ordering: the rows the
    loop of the reorder handler leaves. *)
Definition renumbered (l : list TreeNode) : list TreeNode :=
  imap (λ i (n : TreeNode), (id n, set_ordering (Z.of_nat i) n.2)) l.

(** The rows whose parent is [p]. *)
Definition children_of (db : Store) (p : Z) : gmap Z Row :=
  filter (λ kr : Z * Row, parent_node_id kr.2 = Some p) (rows db).

(** The row with key [k] comes after all other rows of its group: every
    other row with the same parent has a smaller ordering. *)
Definition last_child (db : Store) (k : Z) : Prop :=
  ∃ r, rows db !! k = Some r ∧
       ∀ x rx, x ≠ k → rows db !! x = Some rx →
               parent_node_id rx = parent_node_id r →
               ordering rx < ordering r.

(** The ordering of the row with key [k]. *)
Definition ordering_of (db : Store) (k : Z) : option Z :=
  ordering <$> rows db !! k.

(** ** Stores of the scenarios *)

(** The table after the bootstrap. *)
Definition root_only : Store := ensure_root empty_store.

(** root(1) with children A(2, ordering 0) and B(3, ordering 1). *)
Definition root_A_B : Store :=
  mkStore (<[3 := mkRow "B" (Some 1) 1]>
             (<[2 := mkRow "A" (Some 1) 0]> {[1 := root_row]})) 3.

(** root(1) with child A(2), A with child C(4), and B(3) under the root. *)
Definition root_A_B_C : Store :=
  mkStore (<[4 := mkRow "C" (Some 2) 0]> (rows root_A_B)) 4.

(** The chain of parents from [x] reaches an id without row before it
    meets [a]. *)
Inductive dangling (db : Store) (a : Z) : Z → Prop :=
| dangling_here x :
    x ≠ a → rows db !! x = None → dangling db a x
| dangling_up x r p :
    x ≠ a →
    rows db !! x = Some r →
    parent_node_id r = Some p →
    dangling db a p →
    dangling db a x.

(** The root row is there and has no parent. *)
Definition root_ok (db : Store) : Prop :=
  ∃ r, rows db !! root_id = Some r ∧ parent_node_id r = None.

(** root(1), A(2), B(3) and a row E(5) whose parent 8 has no row. *)
Definition root_A_B_E : Store :=
  mkStore (<[5 := mkRow "E" (Some 8) 0]> (rows root_A_B)) 5.

(** root(1) and B(3, ordering 1): [root_A_B] after the deletion of A. *)
Definition root_B_gap : Store := mkStore (delete 2 (rows root_A_B)) 3.

(** The table after InsertNode(1, "A"), InsertNode(1, "B"),
    InsertNode(2, "C"), InsertNode(2, "D"), InsertNode(2, "E"),
    DeleteNode(4), DeleteNode(5) on the bootstrap table: of the children
    of A only E(6) is left, with ordering 2. *)
Definition gapped : Store :=
  mkStore (<[6 := mkRow "E" (Some 2) 2]> (rows root_A_B)) 6.

(** The table after InsertNode(1, "A"), InsertNode(1, "B"),
    MoveNode(3, 1), InsertNode(1, "C"), DeleteNode(4), InsertNode(1, "D"),
    DeleteNode(2) on the bootstrap table: the children B(3) and D(5) of
    the root both have ordering 2. *)
Definition tied : Store :=
  mkStore (<[5 := mkRow "D" (Some 1) 2]>
             (<[3 := mkRow "B" (Some 1) 2]> (rows root_only))) 5.

(** * Properties *)

(** ** The table *)

Lemma findByPk_Some k db n :
  TreeNode.findByPk k db = Some n ↔ ∃ r, rows db !! k = Some r ∧ n = (k, r).
Proof.
  unfold TreeNode.findByPk. destruct (rows db !! k) as [r|]; simpl.
  - split; [intros [= <-]; eauto | intros (r' & [= <-] & ->); done].
  - split; [done | intros (r' & [=] & _)].
Qed.

Lemma findByPk_None k db :
  TreeNode.findByPk k db = None ↔ rows db !! k = None.
Proof. unfold TreeNode.findByPk. by destruct (rows db !! k). Qed.

Lemma elem_of_findAll p db (n : TreeNode) :
  n ∈ TreeNode.findAll p db ↔ rows db !! n.1 = Some n.2 ∧ parent_node_id n.2 = p.
Proof.
  unfold TreeNode.findAll. rewrite list_elem_of_filter.
  destruct n as [k r]. rewrite elem_of_map_to_list. simpl. tauto.
Qed.

Lemma NoDup_findAll_ids p db : NoDup (id <$> TreeNode.findAll p db).
Proof.
  unfold TreeNode.findAll.
  pose proof (NoDup_fst_map_to_list (rows db)) as Hnd.
  induction (map_to_list (rows db)) as [|n l IH]; [constructor|].
  rewrite fmap_cons in Hnd. apply NoDup_cons in Hnd as [Hn Hl].
  rewrite filter_cons. case_decide; [|by apply IH].
  rewrite fmap_cons. apply NoDup_cons. split; [|by apply IH].
  intros Hin. apply Hn.
  apply list_elem_of_fmap in Hin as (m & Hm & Hin).
  apply list_elem_of_filter in Hin as [_ Hin].
  apply list_elem_of_fmap. exists m. split; [exact Hm | exact Hin].
Qed.

Lemma NoDup_findAll p db : NoDup (TreeNode.findAll p db).
Proof. eapply NoDup_fmap_1, NoDup_findAll_ids. Qed.

Lemma findAll_ordered_perm p db :
  TreeNode.findAll_ordered p db ≡ₚ TreeNode.findAll p db.
Proof. apply merge_sort_Permutation. Qed.

Lemma length_findAll_ordered p db :
  Z.of_nat (length (TreeNode.findAll_ordered p db)) = TreeNode.count p db.
Proof. unfold TreeNode.count. by rewrite findAll_ordered_perm. Qed.

Lemma max_rowid_bound (t : gmap Z Row) k :
  is_Some (t !! k) → ∃ m, TreeNode.max_rowid t = Some m ∧ k ≤ m.
Proof.
  intros [r Hr]. apply elem_of_map_to_list in Hr.
  unfold TreeNode.max_rowid.
  induction (map_to_list t) as [|n l IH]; [by apply elem_of_nil in Hr|].
  simpl. apply elem_of_cons in Hr as [<-|Hr].
  - destruct (foldr _ None l); eexists; (split; [done|]); simpl; lia.
  - destruct (IH Hr) as (m & -> & Hm). eexists. split; [done|]. lia.
Qed.

(** The key of a created row is not in the table. *)
Lemma next_rowid_fresh db : rows db !! TreeNode.next_rowid db = None.
Proof.
  destruct (rows db !! TreeNode.next_rowid db) as [r|] eqn:E; [|done].
  destruct (max_rowid_bound (rows db) (TreeNode.next_rowid db)) as (m & Hm & Hle);
    [by rewrite E|].
  unfold TreeNode.next_rowid in Hle. rewrite Hm in Hle. simpl in Hle. lia.
Qed.

Lemma set_ordering_id r : set_ordering (ordering r) r = r.
Proof. by destruct r. Qed.

Lemma alter_lookup_Some (f : Row → Row) k r (t : gmap Z Row) :
  t !! k = Some r → alter f k t = <[k := f r]> t.
Proof.
  intros Hk. apply map_eq. intros j. rewrite lookup_alter, lookup_insert.
  case_decide; subst; [by rewrite Hk | done].
Qed.

Lemma findAll_insert_fresh p k r db s :
  rows db !! k = None →
  TreeNode.findAll p (mkStore (<[k := r]> (rows db)) s)
    ≡ₚ filter (λ n : TreeNode, parent_node_id n.2 = p) [(k, r)] ++ TreeNode.findAll p db.
Proof.
  intros Hk. unfold TreeNode.findAll. simpl rows.
  rewrite (map_to_list_insert _ _ _ Hk). by rewrite <- filter_app.
Qed.

Lemma count_insert_child p k t o db s :
  rows db !! k = None →
  TreeNode.count (Some p) (mkStore (<[k := mkRow t (Some p) o]> (rows db)) s)
  = TreeNode.count (Some p) db + 1.
Proof.
  intros Hk. unfold TreeNode.count.
  rewrite (findAll_insert_fresh _ _ _ _ _ Hk).
  rewrite filter_cons, decide_True by done. rewrite filter_nil. simpl length. lia.
Qed.

Lemma map_to_list_filter_perm (P : Z * Row → Prop) `{∀ x, Decision (P x)}
    (m : gmap Z Row) :
  map_to_list (filter P m) ≡ₚ filter P (map_to_list m).
Proof.
  apply NoDup_Permutation.
  - apply NoDup_map_to_list.
  - apply NoDup_filter, NoDup_map_to_list.
  - intros [k x]. rewrite elem_of_map_to_list, list_elem_of_filter,
      elem_of_map_to_list, map_lookup_filter_Some. tauto.
Qed.

(** [count] is the number of rows with that parent. *)
Lemma count_children db p :
  TreeNode.count (Some p) db = Z.of_nat (size (children_of db p)).
Proof.
  unfold TreeNode.count, TreeNode.findAll, children_of.
  by rewrite <- length_map_to_list, map_to_list_filter_perm.
Qed.

(** The table [gapped] is the one the handlers leave. *)
Lemma gapped_reachable :
  let s1 := (InsertNode 1 "A" root_only).2 in
  let s2 := (InsertNode 1 "B" s1).2 in
  let s3 := (InsertNode 2 "C" s2).2 in
  let s4 := (InsertNode 2 "D" s3).2 in
  let s5 := (InsertNode 2 "E" s4).2 in
  ∃ s6, DeleteNode 2 4 s5 = Some (Deleted, s6) ∧
        DeleteNode 2 5 s6 = Some (Deleted, gapped).
Proof. eexists. split; vm_compute; reflexivity. Qed.

(** The table [tied] is the one the handlers leave. *)
Lemma tied_reachable :
  let s1 := (InsertNode 1 "A" root_only).2 in
  let s2 := (InsertNode 1 "B" s1).2 in
  ∃ s3 s5 s7,
    MoveNode 3 3 (JsNumber 1) s2 = Some (Moved, s3) ∧
    DeleteNode 2 4 (InsertNode 1 "C" s3).2 = Some (Deleted, s5) ∧
    DeleteNode 2 2 (InsertNode 1 "D" s5).2 = Some (Deleted, s7) ∧
    s7 = tied.
Proof. do 3 eexists. repeat split; vm_compute; reflexivity. Qed.

(** Under the density invariant a row whose ordering is the number of
    the other rows' orderings comes last. *)
Lemma dense_bound db p k rk :
  dense db (Some p) → rows db !! k = Some rk → parent_node_id rk = Some p →
  ordering rk < TreeNode.count (Some p) db.
Proof.
  intros Hdense Hk Hp.
  assert (Hin : ordering rk ∈ (λ n : TreeNode, ordering n.2)
                                <$> TreeNode.findAll (Some p) db).
  { apply (list_elem_of_fmap_2' _ _ (k, rk)); [|done]. by apply elem_of_findAll. }
  unfold dense in Hdense. rewrite Hdense in Hin.
  apply elem_of_seqZ in Hin. lia.
Qed.

(** ** UpdateNode *)

(** C9: UpdateNode on a missing id answers NotFound and leaves the table
    as it is; on an existing id it replaces the title of that row and
    nothing else: the row keeps its key, parent and ordering, and every
    other row is untouched. *)
Theorem UpdateNode_title_only (nodeId : Z) (t : string) (db : Store) :
  (rows db !! nodeId = None → UpdateNode nodeId t db = (NotFound, db)) ∧
  (∀ r, rows db !! nodeId = Some r →
     let r' := mkRow t (parent_node_id r) (ordering r) in
     let db' := (UpdateNode nodeId t db).2 in
     (UpdateNode nodeId t db).1 = mkResponse 200 (NodeBody (nodeId, r')) ∧
     rows db' !! nodeId = Some r' ∧
     (∀ k, k ≠ nodeId → rows db' !! k = rows db !! k) ∧
     sequence db' = sequence db).
Proof.
  unfold UpdateNode, TreeNode.findByPk. split.
  - intros ->. done.
  - intros r Hr. rewrite Hr. simpl. split; [done|]. split; [|split; [|done]].
    + by rewrite lookup_alter_eq, Hr.
    + intros k Hk. by rewrite lookup_alter_ne.
Qed.

Lemma UpdateNode_title_only_witness :
  UpdateNode 7 "New" root_A_B = (NotFound, root_A_B) ∧
  rows (UpdateNode 2 "New" root_A_B).2 !! 2 = Some (mkRow "New" (Some 1) 0) ∧
  rows (UpdateNode 2 "New" root_A_B).2 !! 3 = rows root_A_B !! 3.
Proof.
  destruct (UpdateNode_title_only 7 "New" root_A_B) as [Hmiss _].
  destruct (UpdateNode_title_only 2 "New" root_A_B) as [_ Hhit].
  destruct (Hhit (mkRow "A" (Some 1) 0) eq_refl) as (_ & Hrow & Hframe & _).
  split_and!.
  - apply Hmiss. reflexivity.
  - exact Hrow.
  - apply Hframe. lia.
Defined.

(** ** InsertNode *)

(** C5, as amended: InsertNode answers InvalidParent exactly when the
    parent id has no row, and then the table is unchanged.  When the
    parent exists the table gains one row: its key is not in the table
    before, it has the given title and parent, and its ordering is the
    number of rows whose parent is the parent id.  When the children of
    the parent are dense this puts the new row after all of them.  A
    second insert under the same parent gets the next ordering and
    another key; from the bootstrap table two inserts under the root get
    keys 2, 3 and orderings 0, 1. *)
Theorem InsertNode_appends (parentId : Z) (t : string) (db : Store) :
  ((InsertNode parentId t db).1 = InvalidParent ↔ rows db !! parentId = None) ∧
  (rows db !! parentId = None → (InsertNode parentId t db).2 = db) ∧
  (is_Some (rows db !! parentId) →
     let k := TreeNode.next_rowid db in
     let c := Z.of_nat (size (children_of db parentId)) in
     let r := mkRow t (Some parentId) c in
     let db1 := mkStore (<[k := r]> (rows db)) k in
     rows db !! k = None ∧
     InsertNode parentId t db = (mkResponse 201 (NodeBody (k, r)), db1) ∧
     size (rows db1) = S (size (rows db)) ∧
     (dense db (Some parentId) → last_child db1 k) ∧
     ∀ t2, ∃ k2,
       k2 ≠ k ∧
       (InsertNode parentId t2 db1).1
       = mkResponse 201 (NodeBody (k2, mkRow t2 (Some parentId) (c + 1)))) ∧
  (∀ t1 t2,
     (InsertNode 1 t1 root_only).1
     = mkResponse 201 (NodeBody (2, mkRow t1 (Some 1) 0)) ∧
     (InsertNode 1 t2 (InsertNode 1 t1 root_only).2).1
     = mkResponse 201 (NodeBody (3, mkRow t2 (Some 1) 1))).
Proof.
  split_and!.
  - unfold InsertNode, TreeNode.findByPk, TreeNode.create.
    destruct (rows db !! parentId) as [r|]; simpl; [|done].
    split; [intros [=] | done].
  - unfold InsertNode, TreeNode.findByPk. by intros ->.
  - intros [rp Hp] k c r db1.
    assert (Hc : TreeNode.count (Some parentId) db = c) by apply count_children.
    assert (Hfresh : rows db !! k = None) by apply next_rowid_fresh.
    assert (Hins : ∀ t', InsertNode parentId t' db
                   = (mkResponse 201 (NodeBody (k, mkRow t' (Some parentId) c)),
                      mkStore (<[k := mkRow t' (Some parentId) c]> (rows db)) k)).
    { intros t'. unfold InsertNode, TreeNode.findByPk, TreeNode.create.
      rewrite Hp. simpl. by rewrite Hc. }
    split_and!; [done | apply Hins | by apply map_size_insert_None | |].
    + intros Hdense. exists r. split; [subst db1; simpl; by rewrite lookup_insert_eq|].
      intros x rx Hx Hrx Hpar. subst db1. simpl in Hrx, Hpar.
      rewrite lookup_insert_ne in Hrx by done.
      subst r. simpl. rewrite <- Hc. by eapply dense_bound.
    + intros t2. exists (TreeNode.next_rowid db1). split.
      * intros Heq. pose proof (next_rowid_fresh db1) as Hf.
        rewrite Heq in Hf. simpl in Hf. by rewrite lookup_insert_eq in Hf.
      * unfold InsertNode, TreeNode.findByPk, TreeNode.create.
        assert (Hne : parentId ≠ k) by (intros ->; congruence).
        simpl rows at 1. rewrite lookup_insert_ne, Hp by done. simpl.
        subst db1 r. rewrite count_insert_child by done. by rewrite Hc.
  - intros t1 t2. split; reflexivity.
Qed.

Lemma InsertNode_appends_witness :
  is_Some (rows root_A_B !! 1) ∧
  dense root_A_B (Some 1) ∧
  InsertNode 1 "C" root_A_B
  = (mkResponse 201 (NodeBody (4, mkRow "C" (Some 1) 2)),
     mkStore (<[4 := mkRow "C" (Some 1) 2]> (rows root_A_B)) 4) ∧
  last_child (mkStore (<[4 := mkRow "C" (Some 1) 2]> (rows root_A_B)) 4) 4 ∧
  (InsertNode 9 "C" root_A_B).2 = root_A_B.
Proof.
  destruct (InsertNode_appends 1 "C" root_A_B) as (_ & _ & Hok & _).
  destruct (InsertNode_appends 9 "C" root_A_B) as (_ & Hbad & _).
  assert (Hroot : is_Some (rows root_A_B !! 1)) by (eexists; reflexivity).
  assert (Hdense : dense root_A_B (Some 1)).
  { apply (bool_decide_unpack _). vm_compute. exact I. }
  destruct (Hok Hroot) as (_ & Hins & _ & Hlast & _).
  split_and!.
  - exact Hroot.
  - exact Hdense.
  - exact Hins.
  - exact (Hlast Hdense).
  - apply Hbad. reflexivity.
Defined.

(** C5, as the claim states it: on the table [gapped], where the only
    child of A(2) has ordering 2, InsertNode under A gives the new row the
    ordering 1, the number of children, and the new row does not come
    last: it is listed before the child there was. *)
Lemma InsertNode_not_last_after_gap :
  is_Some (rows gapped !! 2) ∧
  InsertNode 2 "F" gapped
  = (mkResponse 201 (NodeBody (7, mkRow "F" (Some 2) 1)),
     mkStore (<[7 := mkRow "F" (Some 2) 1]> (rows gapped)) 7) ∧
  Z.of_nat (size (children_of gapped 2)) = 1 ∧
  ¬ last_child (InsertNode 2 "F" gapped).2 7 ∧
  GetNode 2 (InsertNode 2 "F" gapped).2
  = mkResponse 200
      (NodeChildrenBody (2, mkRow "A" (Some 1) 0)
         [(7, mkRow "F" (Some 2) 1); (6, mkRow "E" (Some 2) 2)]).
Proof.
  split_and!; [eexists; reflexivity | reflexivity | reflexivity | | reflexivity].
  intros (r & Hr & Hall).
  vm_compute in Hr. injection Hr as <-.
  specialize (Hall 6 (mkRow "E" (Some 2) 2)).
  assert (H : ordering (mkRow "E" (Some 2) 2) < ordering (mkRow "F" (Some 2) 1)).
  { apply Hall; [lia | reflexivity | reflexivity]. }
  simpl in H. lia.
Qed.

(** ** ReorderNode: the range check *)

(** C7: for an existing node with [n] siblings (itself included),
    ReorderNode answers InvalidOrdering exactly when the new ordering is
    negative or at least [n], and then the table is unchanged. *)
Theorem ReorderNode_invalid_ordering (nodeId new_ordering : Z) (db : Store) (r : Row) :
  rows db !! nodeId = Some r →
  let n := TreeNode.count (parent_node_id r) db in
  1 ≤ n ∧
  ((ReorderNode nodeId new_ordering db).1 = InvalidOrdering
   ↔ new_ordering < 0 ∨ n ≤ new_ordering) ∧
  (new_ordering < 0 ∨ n ≤ new_ordering →
   ReorderNode nodeId new_ordering db = (InvalidOrdering, db)).
Proof.
  intros Hr n. unfold ReorderNode, TreeNode.findByPk. rewrite Hr. simpl.
  rewrite length_findAll_ordered. fold n.
  split_and!.
  - assert (Hin : (nodeId, r) ∈ TreeNode.findAll (parent_node_id r) db)
      by (by apply elem_of_findAll).
    subst n. unfold TreeNode.count.
    destruct (TreeNode.findAll (parent_node_id r) db); [by apply elem_of_nil in Hin|].
    simpl length. lia.
  - destruct (new_ordering <? 0) eqn:E1; destruct (n <=? new_ordering) eqn:E2; simpl;
      (split; [try done; intros [=] | try done; lia]); lia.
  - intros Hbad.
    destruct (new_ordering <? 0) eqn:E1; destruct (n <=? new_ordering) eqn:E2; simpl;
      try done; lia.
Qed.

Lemma ReorderNode_invalid_ordering_witness :
  rows root_A_B !! 2 = Some (mkRow "A" (Some 1) 0) ∧
  ReorderNode 2 2 root_A_B = (InvalidOrdering, root_A_B) ∧
  ReorderNode 2 (-1) root_A_B = (InvalidOrdering, root_A_B) ∧
  (ReorderNode 2 1 root_A_B).1 ≠ InvalidOrdering.
Proof.
  assert (Hrow : rows root_A_B !! 2 = Some (mkRow "A" (Some 1) 0)) by reflexivity.
  split_and!.
  - exact Hrow.
  - apply (ReorderNode_invalid_ordering 2 2 root_A_B _ Hrow). right. vm_compute. discriminate.
  - apply (ReorderNode_invalid_ordering 2 (-1) root_A_B _ Hrow). left. lia.
  - intros Heq.
    apply (ReorderNode_invalid_ordering 2 1 root_A_B _ Hrow) in Heq.
    vm_compute in Heq. destruct Heq as [Heq|Heq]; [discriminate Heq | by apply Heq].
Defined.

(** ** DeleteNode on an id without row *)

(** C1: on the bootstrap table, DeleteNode on the id 2, which has no
    row, answers 200 with the message of a successful deletion, not 404;
    the table is unchanged. *)
Theorem DeleteNode_missing_reports_success (fuel : nat) :
  DeleteNode (S fuel) 2 root_only = Some (Deleted, root_only) ∧
  rows root_only !! 2 = None ∧
  status Deleted = 200.
Proof. split_and!; reflexivity. Qed.

(** ** Chains of parents *)

Lemma depth_is_functional db o d1 d2 :
  depth_is db o d1 → depth_is db o d2 → d1 = d2.
Proof.
  intros H1. revert d2.
  induction H1 as [|x r d Hx _ IH]; intros d2 H2; inversion H2; subst; [done|].
  f_equal. apply IH. congruence.
Qed.

Lemma dos_trans db a b x :
  descendant_or_self db a b → descendant_or_self db b x → descendant_or_self db a x.
Proof.
  intros Hab Hbx. induction Hbx as [|x r p Hx Hp _ IH]; [done|].
  by eapply dos_child.
Qed.

(** An ancestor is no deeper than its descendant. *)
Lemma dos_depth db a x dx :
  descendant_or_self db a x → depth_is db (Some x) dx →
  ∃ da, depth_is db (Some a) da ∧ (da ≤ dx)%nat.
Proof.
  intros Hd. revert dx.
  induction Hd as [|x r p Hx Hp _ IH]; intros dx Hdx; [by exists dx|].
  inversion Hdx as [|x' r' d' Hx' Hd']; subst.
  assert (r' = r) as -> by congruence. rewrite Hp in Hd'.
  destruct (IH _ Hd') as (da & Hda & Hle). exists da. split; [done | lia].
Qed.

(** In a tree the parent of a row is not below the row. *)
Lemma parent_not_descendant db x r p d :
  rows db !! x = Some r → parent_node_id r = Some p →
  depth_is db (Some x) d → ¬ descendant_or_self db x p.
Proof.
  intros Hx Hp Hd Hdos.
  inversion Hd as [|x' r' d' Hx' Hd']; subst.
  assert (r' = r) as -> by congruence. rewrite Hp in Hd'.
  destruct (dos_depth _ _ _ _ Hdos Hd') as (da & Hda & Hle).
  pose proof (depth_is_functional _ _ _ _ Hd Hda). lia.
Qed.

(** ** MoveNode *)

(** A value that names the row with key [k] and is compared like it:
    the number [k], or another value the database reads as [k] when [k]
    is not the id it is compared with. *)
Definition names (v : JsValue) (k a : Z) : Prop :=
  v = JsNumber k ∨ (v = JsOther (Some k) ∧ k ≠ a).

Lemma names_key v k a : names v k a → key_of v = Some k.
Proof. by intros [-> | [-> _]]. Qed.

Lemma isDescendant_true db a x :
  descendant_or_self db a x →
  ∃ N, ∀ fuel, (N ≤ fuel)%nat →
    isDescendant fuel db (JsNumber x) a = Some (Returned true).
Proof.
  induction 1 as [|x r p Hx Hp _ [N IH]].
  - exists 1%nat. intros [|fuel] Hf; [lia|]. simpl. by rewrite bool_decide_eq_true_2.
  - exists (S N). intros [|fuel] Hf; [lia|]. simpl.
    case_bool_decide; [done|].
    unfold TreeNode.findByValue, TreeNode.findByPk. simpl. rewrite Hx. simpl. rewrite Hp. apply IH. lia.
Qed.

Lemma isDescendant_true_value db a x v :
  names v x a →
  descendant_or_self db a x →
  ∃ N, ∀ fuel, (N ≤ fuel)%nat → isDescendant fuel db v a = Some (Returned true).
Proof.
  intros [-> | [-> Hne]] Hdos; [by apply isDescendant_true|].
  inversion Hdos as [|x' r p Hx Hp Hdos']; subst; [done|].
  destruct (isDescendant_true _ _ _ Hdos') as [N HN].
  exists (S N). intros [|fuel] Hf; [lia|]. simpl.
  unfold TreeNode.findByValue, TreeNode.findByPk. simpl. rewrite Hx. simpl. rewrite Hp. apply HN. lia.
Qed.

Lemma isDescendant_false db a o d :
  depth_is db o d →
  (∀ x, o = Some x → ¬ descendant_or_self db a x) →
  ∀ fuel, (d < fuel)%nat →
    isDescendant fuel db (column o) a = Some (Returned false).
Proof.
  induction 1 as [|x r d Hx _ IH]; intros Hno [|fuel] Hf; try lia; [done|].
  simpl. case_bool_decide as Hxa.
  - subst. exfalso. eapply Hno; [done | apply dos_self].
  - unfold TreeNode.findByValue, TreeNode.findByPk. simpl. rewrite Hx. simpl. apply IH; [|lia].
    intros y Hy Hdos. eapply Hno; [done|]. by eapply dos_child.
Qed.

Lemma isDescendant_false_value db a x v d :
  key_of v = Some x →
  depth_is db (Some x) d →
  ¬ descendant_or_self db a x →
  ∀ fuel, (d < fuel)%nat → isDescendant fuel db v a = Some (Returned false).
Proof.
  intros Hv Hd Hno fuel Hf.
  destruct v as [|k|[k|]]; simpl in Hv; try done; injection Hv as ->.
  - apply (isDescendant_false db a (Some x) d); [done | by intros ? [= <-] | done].
  - inversion Hd as [|x' r d' Hx Hd']; subst.
    destruct fuel as [|fuel]; [lia|]. simpl.
    unfold TreeNode.findByValue, TreeNode.findByPk. simpl. rewrite Hx. simpl.
    apply (isDescendant_false db a _ d'); [done | | lia].
    intros y Hy Hdos. apply Hno. by eapply dos_child.
Qed.

(** For a JSON number, and for every other value that names a proper
    descendant of the node, the cycle check finds the node. *)
Lemma MoveNode_cycle_checked (db : Store) (nodeId newParentId : Z) (v : JsValue) :
  nodeId ≠ 1 →
  is_Some (rows db !! nodeId) →
  is_Some (rows db !! newParentId) →
  names v newParentId nodeId →
  descendant_or_self db nodeId newParentId →
  ∃ N, ∀ fuel, (N ≤ fuel)%nat → MoveNode fuel nodeId v db = Some (Cycle, db).
Proof.
  intros Hroot [r Hr] [rp Hrp] Hv Hdos.
  destruct (isDescendant_true_value _ _ _ _ Hv Hdos) as [N HN].
  exists N. intros fuel Hf. unfold MoveNode, TreeNode.findByValue, TreeNode.findByPk.
  rewrite (names_key _ _ _ Hv). simpl.
  rewrite Hr, Hrp. simpl. rewrite decide_False by done.
  by rewrite (HN fuel Hf).
Qed.

(** C3: with the node's own id given as the string "2" in the body, the
    strict comparison with the parsed id 2 fails, the chain of parents of
    row 2 does not meet 2, and MoveNode answers 200 and makes node 2 its
    own parent, although the new parent equals the node. *)
Theorem MoveNode_string_self (fuel : nat) :
  descendant_or_self root_A_B 2 2 ∧
  key_of (JsOther (Some 2)) = Some 2 ∧
  MoveNode (3 + fuel) 2 (JsOther (Some 2)) root_A_B
  = Some (Moved, mkStore (<[2 := mkRow "A" (Some 2) 0]> (rows root_A_B)) 3) ∧
  status Moved = 200.
Proof. split_and!; [apply dos_self | reflexivity..]. Qed.

Lemma depth_sound fuel db o d : depth fuel db o = Some d → depth_is db o d.
Proof.
  revert o d. induction fuel as [|fuel IH]; intros o d; [done|]. simpl.
  destruct o as [k|]; [|intros [= <-]; constructor].
  destruct (rows db !! k) as [r|] eqn:Hk; [|done]. simpl.
  destruct (depth fuel db (parent_node_id r)) as [d'|] eqn:Hd; [|done].
  intros [= <-]. econstructor; [done|]. by apply IH.
Qed.

Lemma depth_complete db o d :
  depth_is db o d → ∀ fuel, (d < fuel)%nat → depth fuel db o = Some d.
Proof.
  induction 1 as [|x r d Hx _ IH]; intros [|fuel] Hf; try lia; [done|].
  simpl. rewrite Hx. simpl. rewrite IH by lia. done.
Qed.

Lemma tree_wfb_sound db : tree_wfb db = true → tree_wf db.
Proof.
  unfold tree_wfb. rewrite forallb_forall. intros Hall x r Hx.
  assert (Hin : In (x, r) (map_to_list (rows db))).
  { apply list_elem_of_In. by apply elem_of_map_to_list. }
  apply Hall in Hin. apply bool_decide_eq_true in Hin as [d Hd].
  exists d. by eapply depth_sound.
Qed.

Lemma findAll_split p k r db :
  rows db !! k = Some r →
  TreeNode.findAll p db
    ≡ₚ filter (λ n : TreeNode, parent_node_id n.2 = p) [(k, r)]
       ++ TreeNode.findAll p (TreeNode.destroy k db).
Proof.
  intros Hk. rewrite <- (findAll_insert_fresh p k r (TreeNode.destroy k db) (sequence db)).
  - simpl. by rewrite insert_delete_eq, insert_id.
  - simpl. apply lookup_delete_eq.
Qed.

Lemma findAll_overwrite p k r' db :
  TreeNode.findAll p (mkStore (<[k := r']> (rows db)) (sequence db))
    ≡ₚ filter (λ n : TreeNode, parent_node_id n.2 = p) [(k, r')]
       ++ TreeNode.findAll p (TreeNode.destroy k db).
Proof.
  rewrite <- (findAll_insert_fresh p k r' (TreeNode.destroy k db) (sequence db)).
  - simpl. by rewrite insert_delete_eq.
  - simpl. apply lookup_delete_eq.
Qed.

(** What a successful MoveNode writes. *)
Lemma MoveNode_ok (db : Store) (nodeId newParentId : Z) (v : JsValue) (r : Row) :
  tree_wf db →
  nodeId ≠ 1 →
  rows db !! nodeId = Some r →
  is_Some (rows db !! newParentId) →
  key_of v = Some newParentId →
  ¬ descendant_or_self db nodeId newParentId →
  ∃ N, ∀ fuel, (N ≤ fuel)%nat →
    MoveNode fuel nodeId v db
    = Some (Moved,
            mkStore (<[nodeId := mkRow (title r) (Some newParentId)
                                  (TreeNode.count (Some newParentId) db)]> (rows db))
                    (sequence db)).
Proof.
  intros Hwf Hroot Hr [rp Hrp] Hv Hno.
  destruct (Hwf _ _ Hrp) as [d Hd].
  exists (S d). intros fuel Hf.
  unfold MoveNode, TreeNode.findByValue, TreeNode.findByPk.
  rewrite (isDescendant_false_value db nodeId newParentId v d Hv Hd Hno) by lia.
  rewrite Hv. simpl. rewrite Hr, Hrp. simpl. rewrite decide_False by done.
  simpl. unfold TreeNode.save. simpl. by rewrite (alter_lookup_Some _ _ r).
Qed.

(** A run that answers Moved passed the checks and wrote that row. *)
Lemma MoveNode_Moved_inv fuel (db db' : Store) (nodeId : Z) (v : JsValue) :
  MoveNode fuel nodeId v db = Some (Moved, db') →
  ∃ r newParentId,
    nodeId ≠ 1 ∧ rows db !! nodeId = Some r ∧
    key_of v = Some newParentId ∧
    is_Some (rows db !! newParentId) ∧
    db' = mkStore (<[nodeId := mkRow (title r) (Some newParentId)
                                 (TreeNode.count (Some newParentId) db)]> (rows db))
                  (sequence db).
Proof.
  unfold MoveNode, TreeNode.findByValue, TreeNode.findByPk.
  destruct (rows db !! nodeId) as [r|] eqn:Hr; simpl; [|intros [=]].
  destruct (key_of v) as [np|] eqn:Hv; simpl; [|intros [=]].
  destruct (rows db !! np) as [rp|] eqn:Hrp; simpl; [|intros [=]].
  case_decide as Hroot; [intros [=]|].
  destruct (isDescendant fuel db v nodeId) as [[[|]|]|];
    simpl; intros [=]. subst db'.
  exists r, np. split_and!; [done..|].
  unfold TreeNode.save. simpl. by rewrite (alter_lookup_Some _ _ r).
Qed.

(** C6, as amended: every MoveNode that answers Moved has set the
    node's parent to the new parent and its ordering to the number of
    rows whose parent is the new parent; the title stays, and every other
    row, the former siblings included, is as before.  When the children
    of the new parent are dense this puts the node after all of them.  In
    a tree the move succeeds whenever both rows exist, the node is not
    the root and the new parent is not the node or below it.  Moving A(2)
    under the childless B(3) gives A parent 3 and ordering 0; moving B(3)
    under A(2), which has the child C, gives B parent 2 and ordering 1. *)
Theorem MoveNode_appends (db : Store) (nodeId newParentId : Z) (v : JsValue) :
  key_of v = Some newParentId →
  (∀ fuel db',
     MoveNode fuel nodeId v db = Some (Moved, db') →
     ∃ r,
       rows db !! nodeId = Some r ∧
       rows db' !! nodeId
       = Some (mkRow (title r) (Some newParentId)
                     (Z.of_nat (size (children_of db newParentId)))) ∧
       (∀ k, k ≠ nodeId → rows db' !! k = rows db !! k) ∧
       sequence db' = sequence db ∧
       (dense db (Some newParentId) → last_child db' nodeId)) ∧
  (tree_wf db →
   nodeId ≠ 1 →
   is_Some (rows db !! nodeId) →
   is_Some (rows db !! newParentId) →
   ¬ descendant_or_self db nodeId newParentId →
   ∃ N db', ∀ fuel, (N ≤ fuel)%nat →
     MoveNode fuel nodeId v db = Some (Moved, db')) ∧
  (∀ fuel, ∃ db',
     MoveNode (3 + fuel) 2 (JsNumber 3) root_A_B = Some (Moved, db') ∧
     rows db' !! 2 = Some (mkRow "A" (Some 3) 0) ∧
     rows db' !! 3 = Some (mkRow "B" (Some 1) 1)) ∧
  (∀ fuel, ∃ db',
     MoveNode (4 + fuel) 3 (JsNumber 2) root_A_B_C = Some (Moved, db') ∧
     rows db' !! 3 = Some (mkRow "B" (Some 2) 1) ∧
     rows db' !! 4 = Some (mkRow "C" (Some 2) 0)).
Proof.
  intros Hv. split_and!.
  - intros fuel db' (r & np & Hroot & Hr & Hv' & Hp & ->)%MoveNode_Moved_inv.
    assert (np = newParentId) as -> by congruence.
    rewrite count_children.
    exists r. simpl. split; [done|].
    split; [by rewrite lookup_insert_eq|].
    split; [intros k Hk; by rewrite lookup_insert_ne|]. split; [done|].
    intros Hdense. eexists. split; [simpl; by rewrite lookup_insert_eq|].
    intros k rk Hk Hrk Hpk. simpl in Hrk, Hpk |- *.
    rewrite lookup_insert_ne in Hrk by done.
    rewrite <- count_children. by eapply dense_bound.
  - intros Hwf Hroot [r Hr] Hp Hno.
    destruct (MoveNode_ok db nodeId newParentId v r Hwf Hroot Hr Hp Hv Hno) as [N HN].
    by exists N, (mkStore (<[nodeId := mkRow (title r) (Some newParentId)
                              (TreeNode.count (Some newParentId) db)]> (rows db))
                         (sequence db)).
  - intros fuel. eexists. split; [reflexivity|]. split; reflexivity.
  - intros fuel. eexists. split; [reflexivity|]. split; reflexivity.
Qed.

Lemma MoveNode_appends_witness :
  tree_wf root_A_B_C ∧
  dense root_A_B_C (Some 2) ∧
  ¬ descendant_or_self root_A_B_C 3 2 ∧
  ∃ N db',
    MoveNode N 3 (JsNumber 2) root_A_B_C = Some (Moved, db') ∧
    rows db' !! 3 = Some (mkRow "B" (Some 2) 1) ∧
    rows db' !! 4 = rows root_A_B_C !! 4 ∧
    last_child db' 3.
Proof.
  assert (Hwf : tree_wf root_A_B_C) by (apply tree_wfb_sound; vm_compute; reflexivity).
  assert (Hdense : dense root_A_B_C (Some 2)).
  { apply (bool_decide_unpack _). vm_compute. exact I. }
  assert (Hno : ¬ descendant_or_self root_A_B_C 3 2).
  { intros H. inversion H as [|x r p Hx Hp H1]; subst.
    vm_compute in Hx. injection Hx as <-. injection Hp as <-.
    inversion H1 as [|x r p Hx Hp H2]; subst.
    vm_compute in Hx. injection Hx as <-. discriminate Hp. }
  split; [exact Hwf|]. split; [exact Hdense|]. split; [exact Hno|].
  destruct (MoveNode_appends root_A_B_C 3 2 (JsNumber 2) eq_refl) as (Hinv & Hrun & _).
  destruct (Hrun Hwf ltac:(lia) ltac:(eexists; reflexivity)
              ltac:(eexists; reflexivity) Hno) as (N & db' & HN).
  pose proof (HN N (le_n N)) as Hmoved.
  destruct (Hinv N db' Hmoved) as (r & Hr & Hrow & Hframe & _ & Hlast).
  vm_compute in Hr. injection Hr as <-.
  exists N, db'. split; [exact Hmoved|]. split; [exact Hrow|].
  split; [apply Hframe; lia | exact (Hlast Hdense)].
Defined.

(** C6, as the claim states it: on the table [gapped], where the only
    child of A(2) has ordering 2, MoveNode of B(3) under A succeeds and
    gives B the ordering 1, the number of children of A, and B does not
    come last: it is listed before the child there was. *)
Lemma MoveNode_not_last_after_gap :
  Z.of_nat (size (children_of gapped 2)) = 1 ∧
  ∃ db',
    MoveNode 4 3 (JsNumber 2) gapped = Some (Moved, db') ∧
    rows db' !! 3 = Some (mkRow "B" (Some 2) 1) ∧
    rows db' !! 6 = Some (mkRow "E" (Some 2) 2) ∧
    ¬ last_child db' 3 ∧
    GetNode 2 db'
    = mkResponse 200
        (NodeChildrenBody (2, mkRow "A" (Some 1) 0)
           [(3, mkRow "B" (Some 2) 1); (6, mkRow "E" (Some 2) 2)]).
Proof.
  split; [reflexivity|]. eexists. split; [reflexivity|].
  split; [reflexivity|]. split; [reflexivity|]. split; [|reflexivity].
  intros (r & Hr & Hall).
  vm_compute in Hr. injection Hr as <-.
  specialize (Hall 6 (mkRow "E" (Some 2) 2)).
  assert (H : ordering (mkRow "E" (Some 2) 2) < ordering (mkRow "B" (Some 2) 1)).
  { apply Hall; [lia | reflexivity | reflexivity]. }
  simpl in H. lia.
Qed.

(** ** MoveNode to the parent the node already has *)

Lemma filter_ne_fresh (o : Z) (l : list Z) : o ∉ l → filter (λ x, x ≠ o) l = l.
Proof.
  induction l as [|x l IH]; intros Hn; [done|].
  apply not_elem_of_cons in Hn as [Hx Hl].
  rewrite filter_cons, decide_True by done. f_equal. by apply IH.
Qed.

(** C10: in a tree, moving a node to the parent it already has passes
    the checks and gives the node the ordering [k], the number of children
    of that parent with the node counted in.  Afterwards the [k] children
    have the orderings 0..k-1 without the node's old one, and [k]; the
    group is not dense any more. *)
Theorem MoveNode_same_parent (db : Store) (nodeId p : Z) (v : JsValue) (r : Row) :
  tree_wf db →
  nodeId ≠ 1 →
  rows db !! nodeId = Some r →
  parent_node_id r = Some p →
  key_of v = Some p →
  dense db (Some p) →
  let k := TreeNode.count (Some p) db in
  ∃ db',
    (∃ N, ∀ fuel, (N ≤ fuel)%nat → MoveNode fuel nodeId v db = Some (Moved, db')) ∧
    rows db' !! nodeId = Some (mkRow (title r) (Some p) k) ∧
    (∀ j, j ≠ nodeId → rows db' !! j = rows db !! j) ∧
    TreeNode.count (Some p) db' = k ∧
    (λ n : TreeNode, ordering n.2) <$> TreeNode.findAll (Some p) db'
      ≡ₚ filter (λ o, o ≠ ordering r) (seqZ 0 k) ++ [k] ∧
    ¬ dense db' (Some p).
Proof.
  intros Hwf Hroot Hr Hp Hv Hdense k.
  destruct (Hwf _ _ Hr) as [d Hd].
  assert (Hprow : is_Some (rows db !! p)).
  { inversion Hd as [|x' r' d' Hx' Hd']; subst.
    assert (r' = r) as -> by congruence. rewrite Hp in Hd'.
    inversion Hd'; subst. by eexists. }
  pose proof (parent_not_descendant _ _ _ _ _ Hr Hp Hd) as Hno.
  set (r' := mkRow (title r) (Some p) k).
  set (db' := mkStore (<[nodeId := r']> (rows db)) (sequence db)).
  set (rest := (λ n : TreeNode, ordering n.2)
                 <$> TreeNode.findAll (Some p) (TreeNode.destroy nodeId db)).
  assert (Hbefore : ordering r :: rest ≡ₚ seqZ 0 k).
  { unfold dense in Hdense. fold k in Hdense. rewrite <- Hdense.
    rewrite (findAll_split _ _ _ _ Hr).
    by rewrite filter_cons, decide_True, filter_nil by done. }
  assert (Hafter : (λ n : TreeNode, ordering n.2) <$> TreeNode.findAll (Some p) db'
                   ≡ₚ k :: rest).
  { subst db'. rewrite findAll_overwrite.
    by rewrite filter_cons, decide_True, filter_nil by done. }
  assert (Hcount : TreeNode.count (Some p) db' = k).
  { unfold TreeNode.count at 1.
    rewrite <- (length_fmap (λ n : TreeNode, ordering n.2)), Hafter.
    subst k. unfold TreeNode.count.
    rewrite <- (length_fmap (λ n : TreeNode, ordering n.2)
                 (TreeNode.findAll (Some p) db)).
    unfold dense in Hdense. rewrite Hdense, <- Hbefore. done. }
  assert (Hfresh : ordering r ∉ rest).
  { pose proof (NoDup_seqZ 0 k) as Hnd. rewrite <- Hbefore in Hnd.
    by apply NoDup_cons in Hnd as [? _]. }
  exists db'. split_and!.
  - by apply (MoveNode_ok db nodeId p v r).
  - subst db'. simpl. by rewrite lookup_insert_eq.
  - intros j Hj. subst db'. simpl. by rewrite lookup_insert_ne.
  - exact Hcount.
  - rewrite Hafter, <- Hbefore.
    rewrite filter_cons, decide_False by (intros ?; done).
    rewrite filter_ne_fresh by done.
    apply Permutation_cons_append.
  - unfold dense. rewrite Hcount, Hafter. intros Hperm.
    assert (Hin : k ∈ seqZ 0 k) by (rewrite <- Hperm; left).
    apply elem_of_seqZ in Hin. lia.
Qed.

Lemma MoveNode_same_parent_witness :
  tree_wf root_A_B ∧
  dense root_A_B (Some 1) ∧
  ∃ db',
    (∃ N, ∀ fuel, (N ≤ fuel)%nat →
       MoveNode fuel 2 (JsNumber 1) root_A_B = Some (Moved, db')) ∧
    rows db' !! 2 = Some (mkRow "A" (Some 1) 2) ∧
    ¬ dense db' (Some 1).
Proof.
  assert (Hwf : tree_wf root_A_B) by (apply tree_wfb_sound; vm_compute; reflexivity).
  assert (Hdense : dense root_A_B (Some 1)).
  { apply (bool_decide_unpack _). vm_compute. exact I. }
  split; [exact Hwf|]. split; [exact Hdense|].
  destruct (MoveNode_same_parent root_A_B 2 1 (JsNumber 1) (mkRow "A" (Some 1) 0)
              Hwf ltac:(lia) eq_refl eq_refl eq_refl Hdense)
    as (db' & Hrun & Hrow & _ & _ & _ & Hnd).
  exists db'. split; [exact Hrun|]. split; [exact Hrow | exact Hnd].
Defined.

(** ** DeleteNode *)

Lemma dos_mono s t a x :
  rows t ⊆ rows s → descendant_or_self t a x → descendant_or_self s a x.
Proof.
  intros Hsub. induction 1 as [|x r p Hx Hp _ IH]; [apply dos_self|].
  eapply dos_child; [|done..]. by eapply lookup_weaken.
Qed.

(** A chain of [s] is a chain of the smaller table [t], or [t] lacks one
    of its rows. *)
Lemma dos_cut s t a x :
  rows t ⊆ rows s → descendant_or_self s a x →
  descendant_or_self t a x ∨
  ∃ y, descendant_or_self s y x ∧ is_Some (rows s !! y) ∧ rows t !! y = None.
Proof.
  intros Hsub. induction 1 as [|x r p Hx Hp _ IH]; [left; apply dos_self|].
  destruct IH as [IH | (y & Hy & Hsy & Hty)].
  - destruct (rows t !! x) as [r'|] eqn:Htx.
    + left. eapply dos_child; [done| |done].
      pose proof (lookup_weaken _ _ _ _ Htx Hsub). congruence.
    + right. exists x. split; [apply dos_self|]. by split; [eexists|].
  - right. exists y. split; [by eapply dos_child | done].
Qed.

(** Below [k] are [k] and what is below its children. *)
Lemma dos_children db k x :
  descendant_or_self db k x →
  x = k ∨ ∃ c : TreeNode, c ∈ TreeNode.findAll (Some k) db ∧ descendant_or_self db (id c) x.
Proof.
  induction 1 as [|x r p Hx Hp _ IH]; [by left|]. right.
  destruct IH as [-> | (c & Hc & Hcx)].
  - exists (x, r). split; [by apply elem_of_findAll | apply dos_self].
  - exists c. split; [done|]. by eapply dos_child.
Qed.

Lemma child_dos db k (c : TreeNode) :
  c ∈ TreeNode.findAll (Some k) db → descendant_or_self db k (id c).
Proof.
  intros [Hc Hp]%elem_of_findAll. eapply dos_child; [done..|apply dos_self].
Qed.

Lemma ranked_mono rank s t : rows t ⊆ rows s → ranked rank s → ranked rank t.
Proof.
  intros Hsub Hr x r p Hx Hp. eapply Hr; [|done]. by eapply lookup_weaken.
Qed.

Lemma removes_frame s t D x : removes s t D → ¬ D x → rows t !! x = rows s !! x.
Proof.
  intros (Hsub & _ & _ & Hrem) Hn.
  destruct (rows t !! x) as [r|] eqn:Ht.
  - symmetry. by eapply lookup_weaken.
  - destruct (rows s !! x) as [r|] eqn:Hs; [|done].
    exfalso. apply Hn, Hrem; [by rewrite Hs | done].
Qed.

Lemma removes_unique s t t' D : removes s t D → removes s t' D → t = t'.
Proof.
  intros H H'. destruct t as [m q], t' as [m' q'].
  assert (Hq : q = q').
  { destruct H as (_ & Hq & _), H' as (_ & Hq' & _). simpl in *. congruence. }
  subst q'. f_equal. apply map_eq. intros x.
  destruct H as (Hsub & _ & Hgone & Hwhy), H' as (Hsub' & _ & Hgone' & Hwhy').
  simpl in *.
  destruct (m !! x) as [r|] eqn:Hm, (m' !! x) as [r'|] eqn:Hm'; [| | |done].
  - pose proof (lookup_weaken _ _ _ _ Hm Hsub).
    pose proof (lookup_weaken _ _ _ _ Hm' Hsub'). congruence.
  - exfalso. assert (HD : D x).
    { apply Hwhy'; [|done]. exists r. by eapply lookup_weaken. }
    apply Hgone in HD. congruence.
  - exfalso. assert (HD : D x).
    { apply Hwhy; [|done]. exists r'. by eapply lookup_weaken. }
    apply Hgone' in HD. congruence.
Qed.

Section delete.
Variable rank : Z → nat.
Variable fuel : nat.

(** The recursive calls of one level do what the whole is to do. *)
Hypothesis calls :
  ∀ k db, ranked rank db → (rank k < fuel)%nat →
    ∃ db', deleteNodeAndDescendants fuel k db = Some db' ∧
           removes db db' (descendant_or_self db k).

(** The loop over the children, [seen] being those already done. *)
Lemma for_each_child_removes s (children seen : list TreeNode) t :
  ranked rank s →
  (∀ c, c ∈ children → (rank (id c) < fuel)%nat) →
  removes s t (λ x, ∃ c, c ∈ seen ∧ descendant_or_self s (id c) x) →
  ∃ t', for_each (λ child, deleteNodeAndDescendants fuel (id child)) children t
        = Some t' ∧
        removes s t' (λ x, ∃ c, c ∈ seen ++ children ∧ descendant_or_self s (id c) x).
Proof.
  intros Hrank. revert seen t.
  induction children as [|c children IH]; intros seen t Hlt Hinv.
  { exists t. by rewrite app_nil_r. }
  simpl.
  destruct Hinv as (Hsub & Hseq & Hgone & Hwhy).
  destruct (calls (id c) t) as (t1 & -> & Hsub1 & Hseq1 & Hgone1 & Hwhy1).
  { by eapply ranked_mono. }
  { apply Hlt. left. }
  simpl.
  replace (seen ++ c :: children) with ((seen ++ [c]) ++ children)
    by (by rewrite <- app_assoc).
  apply IH; [intros c' Hc'; apply Hlt; by right|].
  split_and!.
  - by etrans.
  - congruence.
  - intros x (c' & [Hc' | ->%list_elem_of_singleton]%elem_of_app & Hdos).
    + eapply lookup_weaken_None; [|exact Hsub1]. apply Hgone. eauto.
    + destruct (dos_cut s t _ _ Hsub Hdos) as [Ht | (y & Hyx & Hsy & Hty)].
      * by apply Hgone1.
      * eapply lookup_weaken_None; [|exact Hsub1].
        destruct (Hwhy y Hsy Hty) as (c' & Hc' & Hc'y).
        apply Hgone. exists c'. split; [done|]. by eapply dos_trans.
  - intros x Hsx Ht1x.
    destruct (rows t !! x) as [r|] eqn:Htx.
    + exists c. split; [apply elem_of_app; right; by left|].
      eapply dos_mono; [exact Hsub|]. apply Hwhy1; [by rewrite Htx | done].
    + destruct (Hwhy x Hsx Htx) as (c' & Hc' & Hdos).
      exists c'. split; [apply elem_of_app; by left | done].
Qed.
End delete.

(** With a recursion budget above the rank of [k], the helper ends and
    has removed [k] and what is below it, and nothing else. *)
Lemma deleteNodeAndDescendants_removes rank fuel :
  ∀ k db, ranked rank db → (rank k < fuel)%nat →
    ∃ db', deleteNodeAndDescendants fuel k db = Some db' ∧
           removes db db' (descendant_or_self db k).
Proof.
  induction fuel as [|fuel IH]; intros k db Hrank Hlt; [lia|]. simpl.
  destruct (for_each_child_removes rank fuel IH db (TreeNode.findAll (Some k) db) [] db)
    as (t & -> & Hsub & Hseq & Hgone & Hwhy); [done | | |].
  { intros c [Hc Hp]%elem_of_findAll.
    pose proof (Hrank _ _ _ Hc Hp). unfold id. lia. }
  { split_and!; [done | done | by intros x (c & ?%elem_of_nil & _) |].
    intros x [r Hx] Hx'. congruence. }
  simpl. eexists. split; [done|]. split_and!; simpl.
  - etrans; [apply delete_subseteq | done].
  - done.
  - intros x Hdos. apply lookup_delete_None.
    destruct (dos_children _ _ _ Hdos) as [-> | (c & Hc & Hcx)]; [by left|].
    right. apply Hgone. eauto.
  - intros x Hx [-> | Htx]%lookup_delete_None; [apply dos_self|].
    destruct (Hwhy x Hx Htx) as (c & Hc & Hcx).
    eapply dos_trans; [|done]. by apply child_dos.
Qed.

Lemma bounded_choice {A} (P : A → nat → Prop) (l : list A) :
  (∀ a, a ∈ l → ∃ d, P a d) →
  ∃ D, ∀ a, a ∈ l → ∃ d, P a d ∧ (d ≤ D)%nat.
Proof.
  induction l as [|a l IH]; intros Hall.
  { exists 0%nat. by intros a ?%elem_of_nil. }
  destruct IH as [D HD]; [intros b Hb; apply Hall; by right|].
  destruct (Hall a) as [d Hd]; [by left|].
  exists (d `max` D)%nat. intros b [-> | Hb]%elem_of_cons.
  - exists d. split; [done | lia].
  - destruct (HD b Hb) as (d' & Hd' & Hle). exists d'. split; [done | lia].
Qed.

(** A tree has a rank: the depth, counted from the deepest row. *)
Lemma tree_wf_ranked db : tree_wf db → ∃ rank, ranked rank db.
Proof.
  intros Hwf.
  destruct (bounded_choice (λ (n : TreeNode) d, depth_is db (Some (id n)) d)
              (map_to_list (rows db))) as [D HD].
  { intros [x r] Hx%elem_of_map_to_list. by eapply Hwf. }
  exists (λ x, (D - default 0%nat (depth (S D) db (Some x)))%nat).
  intros x r p Hx Hp.
  destruct (HD (x, r)) as (d & Hd & Hle); [by apply elem_of_map_to_list|].
  simpl in Hd. inversion Hd as [|x' r' d' Hx' Hd']; subst.
  assert (r' = r) as -> by congruence. rewrite Hp in Hd'.
  rewrite (depth_complete _ _ _ Hd) by lia.
  rewrite (depth_complete _ _ _ Hd') by lia. simpl. lia.
Qed.

(** C4: in a tree, DeleteNode on an existing node other than the root
    removes the node and every descendant of it and no other row: GetNode
    on the node or on a former descendant answers NotFound, and the rows
    outside the subtree are as before. *)
Theorem DeleteNode_removes_subtree (db : Store) (nodeId : Z) :
  tree_wf db →
  nodeId ≠ 1 →
  is_Some (rows db !! nodeId) →
  ∃ db',
    (∃ N, ∀ fuel, (N ≤ fuel)%nat → DeleteNode fuel nodeId db = Some (Deleted, db')) ∧
    (∀ x, descendant_or_self db nodeId x →
          rows db' !! x = None ∧ GetNode x db' = NotFound) ∧
    (∀ x, ¬ descendant_or_self db nodeId x → rows db' !! x = rows db !! x) ∧
    sequence db' = sequence db.
Proof.
  intros Hwf Hroot _.
  destruct (tree_wf_ranked db Hwf) as [rank Hrank].
  destruct (deleteNodeAndDescendants_removes rank (S (rank nodeId)) nodeId db Hrank)
    as (db' & Hrun & Hrem); [lia|].
  exists db'. split_and!.
  - exists (S (rank nodeId)). intros fuel Hf. unfold DeleteNode.
    rewrite decide_False by done.
    destruct (deleteNodeAndDescendants_removes rank fuel nodeId db Hrank)
      as (db'' & Hrun' & Hrem'); [lia|].
    rewrite Hrun'. simpl. do 2 f_equal. by eapply removes_unique.
  - intros x Hx. destruct Hrem as (_ & _ & Hgone & _).
    pose proof (Hgone x Hx) as Hnone. split; [done|].
    unfold GetNode, TreeNode.findByPk. by rewrite Hnone.
  - intros x Hx. by eapply removes_frame.
  - by destruct Hrem as (_ & Hq & _).
Qed.

Lemma DeleteNode_removes_subtree_witness :
  tree_wf root_A_B_C ∧
  ∃ db',
    (∃ N, ∀ fuel, (N ≤ fuel)%nat → DeleteNode fuel 2 root_A_B_C = Some (Deleted, db')) ∧
    GetNode 2 db' = NotFound ∧
    GetNode 4 db' = NotFound ∧
    rows db' !! 3 = rows root_A_B_C !! 3.
Proof.
  assert (Hwf : tree_wf root_A_B_C) by (apply tree_wfb_sound; vm_compute; reflexivity).
  split; [exact Hwf|].
  destruct (DeleteNode_removes_subtree root_A_B_C 2 Hwf ltac:(lia)
              ltac:(eexists; reflexivity)) as (db' & Hrun & Hgone & Hframe & _).
  exists db'. split; [exact Hrun|]. split; [|split].
  - apply Hgone, dos_self.
  - apply Hgone. eapply dos_child; [reflexivity | reflexivity | apply dos_self].
  - apply Hframe. intros H. inversion H as [|x r p Hx Hp H1]; subst.
    vm_compute in Hx. injection Hx as <-. injection Hp as <-.
    inversion H1 as [|x r p Hx Hp H2]; subst.
    vm_compute in Hx. injection Hx as <-. discriminate Hp.
Defined.

(** ** The sibling list in ascending ordering *)

Global Instance by_ordering_total : Total TreeNode.by_ordering.
Proof. intros a b. unfold TreeNode.by_ordering. lia. Qed.

Global Instance by_ordering_trans : Transitive TreeNode.by_ordering.
Proof. intros a b c. unfold TreeNode.by_ordering. lia. Qed.

Lemma Sorted_seqZ m n : Sorted Z.le (seqZ m n).
Proof.
  remember (Z.to_nat n) as k eqn:Hk. revert m n Hk.
  induction k as [|k IH]; intros m n Hk.
  - unfold seqZ. rewrite <- Hk. constructor.
  - rewrite seqZ_cons by lia. constructor; [apply IH; lia|].
    destruct (decide (0 < Z.pred n)) as [Hpos|Hneg].
    + rewrite seqZ_cons by done. constructor. lia.
    + unfold seqZ. replace (Z.to_nat (Z.pred n)) with 0%nat by lia. constructor.
Qed.

Lemma Sorted_lookup {A} (R : relation A) (l : list A) :
  (∀ i x y, l !! i = Some x → l !! S i = Some y → R x y) → Sorted R l.
Proof.
  induction l as [|a l IH]; intros Hl; [constructor|].
  constructor.
  - apply IH. intros i x y Hx Hy. by apply (Hl (S i)).
  - destruct l as [|b l]; constructor. by apply (Hl 0%nat).
Qed.

(** Under the density invariant the ascending list has the ordering [i]
    at index [i]. *)
Lemma ordered_dense db p :
  dense db p →
  (λ n : TreeNode, ordering n.2) <$> TreeNode.findAll_ordered p db
  = seqZ 0 (TreeNode.count p db).
Proof.
  intros Hdense. apply (Sorted_unique Z.le).
  - eapply Sorted_fmap; [|apply (Sorted_merge_sort TreeNode.by_ordering)].
    intros x y. unfold TreeNode.by_ordering. lia.
  - apply Sorted_seqZ.
  - by rewrite findAll_ordered_perm.
Qed.

Lemma ordered_dense_lookup db p i (n : TreeNode) :
  dense db p → TreeNode.findAll_ordered p db !! i = Some n →
  ordering n.2 = Z.of_nat i.
Proof.
  intros Hdense Hi.
  assert (H : ((λ n : TreeNode, ordering n.2) <$> TreeNode.findAll_ordered p db) !! i
              = Some (ordering n.2)) by (by rewrite list_lookup_fmap, Hi).
  rewrite (ordered_dense _ _ Hdense) in H. apply lookup_seqZ in H. lia.
Qed.

(** The node sits at the index that is its ordering. *)
Lemma ordered_dense_self db k r :
  rows db !! k = Some r → dense db (parent_node_id r) →
  0 ≤ ordering r < TreeNode.count (parent_node_id r) db ∧
  TreeNode.findAll_ordered (parent_node_id r) db !! Z.to_nat (ordering r) = Some (k, r).
Proof.
  intros Hk Hdense.
  assert (Hin : (k, r) ∈ TreeNode.findAll_ordered (parent_node_id r) db).
  { rewrite findAll_ordered_perm. by apply elem_of_findAll. }
  apply list_elem_of_lookup in Hin as [i Hi].
  pose proof (ordered_dense_lookup _ _ _ _ Hdense Hi) as Ho. simpl in Ho.
  pose proof (lookup_lt_Some _ _ _ Hi) as Hlt.
  rewrite <- length_findAll_ordered. rewrite Ho, Nat2Z.id. split; [lia | done].
Qed.

(** ** Splicing *)

Lemma splice_start_in_range start len :
  0 ≤ start ≤ Z.of_nat len → splice_start start len = Z.to_nat start.
Proof.
  intros H. unfold splice_start.
  destruct (start <? 0) eqn:E; [lia|]. f_equal. lia.
Qed.

Lemma delete_reinsert {A} (l : list A) i x :
  l !! i = Some x → take i (delete i l) ++ x :: drop i (delete i l) = l.
Proof.
  intros Hi. pose proof (lookup_lt_Some _ _ _ Hi) as Hlt.
  rewrite delete_take_drop.
  rewrite take_app_length' by (rewrite length_take; lia).
  rewrite drop_app_length' by (rewrite length_take; lia).
  by apply take_drop_middle.
Qed.

Lemma delete_insert_perm {A} (l : list A) i j x :
  l !! i = Some x → take j (delete i l) ++ x :: drop j (delete i l) ≡ₚ l.
Proof.
  intros Hi. rewrite <- Permutation_middle, take_drop.
  rewrite delete_take_drop, Permutation_middle.
  by rewrite take_drop_middle.
Qed.

Lemma filter_delete_insert (l : list TreeNode) i j (n : TreeNode) :
  l !! i = Some n →
  filter (λ x, x ≠ id n) (id <$> (take j (delete i l) ++ n :: drop j (delete i l)))
  = filter (λ x, x ≠ id n) (id <$> l).
Proof.
  intros Hi.
  rewrite <- (take_drop_middle l i n Hi) at 3.
  rewrite !fmap_app, !fmap_cons, !filter_app, !filter_cons.
  rewrite !decide_False by (intros ?; done).
  rewrite <- !filter_app, <- !fmap_app, take_drop.
  by rewrite delete_take_drop.
Qed.

(** ** The renumbering loop *)

Lemma renumber_spec (l : list TreeNode) :
  ∀ i db, NoDup (id <$> l) →
    sequence (renumber i l db) = sequence db ∧
    (∀ j n, l !! j = Some n →
       rows (renumber i l db) !! id n
       = set_ordering (Z.of_nat (i + j)) <$> rows db !! id n) ∧
    (∀ x, x ∉ id <$> l → rows (renumber i l db) !! x = rows db !! x).
Proof.
  induction l as [|m l IH]; intros i db Hnd; [by split_and!|].
  rewrite fmap_cons in Hnd. apply NoDup_cons in Hnd as [Hm Hnd].
  destruct (IH (S i) (TreeNode.update_ordering (Z.of_nat i) (id m) db) Hnd)
    as (Hseq & Hin & Hout).
  simpl. split_and!.
  - by rewrite Hseq.
  - intros [|j] n Hj; simpl in Hj.
    + injection Hj as <-. rewrite (Hout _ Hm). simpl.
      rewrite lookup_alter_eq. by rewrite Nat.add_0_r.
    + rewrite (Hin _ _ Hj). simpl.
      rewrite lookup_alter_ne.
      * by replace (S (i + j))%nat with (i + S j)%nat by lia.
      * intros Heq. apply Hm. rewrite Heq.
        apply list_elem_of_fmap_2. by eapply list_elem_of_lookup_2.
  - intros x [Hx Hxl]%not_elem_of_cons. rewrite (Hout _ Hxl). simpl.
    by rewrite lookup_alter_ne.
Qed.

Lemma renumbered_ids l : id <$> renumbered l = id <$> l.
Proof.
  unfold renumbered. apply list_eq. intros i.
  rewrite !list_lookup_fmap, list_lookup_imap. by destruct (l !! i).
Qed.

Lemma renumbered_orderings l :
  (λ n : TreeNode, ordering n.2) <$> renumbered l = seqZ 0 (Z.of_nat (length l)).
Proof.
  unfold renumbered. apply list_eq. intros i.
  rewrite list_lookup_fmap, list_lookup_imap.
  destruct (l !! i) as [n|] eqn:Hi; simpl.
  - symmetry. apply lookup_seqZ. split; [lia|].
    apply lookup_lt_Some in Hi. lia.
  - symmetry. apply lookup_seqZ_ge. apply lookup_ge_None in Hi. lia.
Qed.

Lemma Sorted_renumbered l : Sorted TreeNode.by_ordering (renumbered l).
Proof.
  apply Sorted_lookup. intros i x y Hx Hy. unfold renumbered in *.
  rewrite list_lookup_imap in Hx, Hy.
  destruct (l !! i); [|done]. destruct (l !! S i); [|done].
  simpl in *. injection Hx as <-. injection Hy as <-.
  unfold TreeNode.by_ordering. simpl. lia.
Qed.

(** The children of [p] after the loop over a list [l] that holds, once
    each, the children of [p]. *)
Lemma findAll_renumber p db (l : list TreeNode) :
  l ≡ₚ TreeNode.findAll p db →
  TreeNode.findAll p (renumber 0 l db) ≡ₚ renumbered l.
Proof.
  intros Hl.
  assert (Hnd : NoDup (id <$> l)) by (rewrite Hl; apply NoDup_findAll_ids).
  destruct (renumber_spec l 0 db Hnd) as (_ & Hin & Hout).
  apply NoDup_Permutation.
  - apply NoDup_findAll.
  - eapply NoDup_fmap_1. by rewrite renumbered_ids.
  - intros [x r']. rewrite elem_of_findAll. simpl. unfold renumbered.
    rewrite list_elem_of_lookup. split.
    + intros [Hx Hp].
      destruct (decide (x ∈ id <$> l)) as [Hxl | Hxl].
      * apply list_elem_of_fmap in Hxl as (n & -> & Hn).
        apply list_elem_of_lookup in Hn as [j Hj]. exists j.
        rewrite list_lookup_imap, Hj. simpl.
        rewrite (Hin _ _ Hj) in Hx.
        assert (Hn : n ∈ TreeNode.findAll p db).
        { rewrite <- Hl. by eapply list_elem_of_lookup_2. }
        apply elem_of_findAll in Hn as [Hn _]. unfold id in Hx.
        rewrite Hn in Hx. simpl in Hx. by injection Hx as <-.
      * exfalso. apply Hxl. rewrite (Hout _ Hxl) in Hx.
        apply (list_elem_of_fmap_2' id _ (x, r')); [|done].
        rewrite Hl. by apply elem_of_findAll.
    + intros [j Hj]. rewrite list_lookup_imap in Hj.
      destruct (l !! j) as [n|] eqn:Hn; [|done]. simpl in Hj.
      injection Hj as <- <-.
      assert (Hn' : n ∈ TreeNode.findAll p db).
      { rewrite <- Hl. by eapply list_elem_of_lookup_2. }
      apply elem_of_findAll in Hn' as [Hrow Hp].
      rewrite (Hin _ _ Hn). unfold id. rewrite Hrow. done.
Qed.

Lemma findAll_ordered_renumber p db (l : list TreeNode) :
  l ≡ₚ TreeNode.findAll p db →
  TreeNode.findAll_ordered p (renumber 0 l db) = renumbered l.
Proof.
  intros Hl. pose proof (findAll_renumber p db l Hl) as Hperm.
  apply (Sorted_unique_strong TreeNode.by_ordering).
  - intros x1 x2 Hx1 Hx2 H12 H21.
    rewrite findAll_ordered_perm, Hperm in Hx1.
    unfold renumbered in Hx1, Hx2.
    apply list_elem_of_lookup in Hx1 as [i Hi], Hx2 as [j Hj].
    rewrite list_lookup_imap in Hi, Hj.
    destruct (l !! i) as [n|] eqn:Hn; [|done].
    destruct (l !! j) as [m|] eqn:Hm; [|done].
    simpl in Hi, Hj. injection Hi as <-. injection Hj as <-.
    unfold TreeNode.by_ordering in H12, H21. simpl in H12, H21.
    assert (i = j) as -> by lia. congruence.
  - apply (Sorted_merge_sort TreeNode.by_ordering).
  - apply Sorted_renumbered.
  - by rewrite findAll_ordered_perm.
Qed.

(** ** ReorderNode *)

(** Within the range and under the density invariant the handler removes
    the node itself and writes the indices of the list with the node put
    back at the new index. *)
Lemma ReorderNode_run (db : Store) (nodeId new_ordering : Z) (r : Row) :
  rows db !! nodeId = Some r →
  dense db (parent_node_id r) →
  0 ≤ new_ordering < TreeNode.count (parent_node_id r) db →
  let before := TreeNode.findAll_ordered (parent_node_id r) db in
  let rest := delete (Z.to_nat (ordering r)) before in
  let result := take (Z.to_nat new_ordering) rest
                ++ (nodeId, r) :: drop (Z.to_nat new_ordering) rest in
  ReorderNode nodeId new_ordering db = (Reordered, renumber 0 result db) ∧
  before !! Z.to_nat (ordering r) = Some (nodeId, r) ∧
  result !! Z.to_nat new_ordering = Some (nodeId, r) ∧
  result ≡ₚ TreeNode.findAll (parent_node_id r) db.
Proof.
  intros Hr Hdense Hnew before rest result.
  destruct (ordered_dense_self _ _ _ Hr Hdense) as [Hord Hself].
  pose proof (length_findAll_ordered (parent_node_id r) db) as Hlen.
  fold before in Hself, Hlen.
  assert (Hrest : length rest = pred (length before)).
  { unfold rest. rewrite length_delete; [lia | by eexists]. }
  split_and!.
  - unfold ReorderNode, TreeNode.findByPk. rewrite Hr. simpl. fold before.
    replace (new_ordering <? 0) with false by lia.
    replace (Z.of_nat (length before) <=? new_ordering) with false by lia.
    simpl. unfold splice_remove. rewrite splice_start_in_range by lia.
    fold rest. unfold splice_insert.
    rewrite splice_start_in_range by lia. done.
  - done.
  - subst result.
    rewrite <- (length_take_le rest (Z.to_nat new_ordering)) at 1 by lia.
    apply list_lookup_middle. done.
  - subst result rest. rewrite (delete_insert_perm _ _ _ _ Hself).
    apply findAll_ordered_perm.
Qed.

(** C2: for a node whose sibling group is dense and a new ordering in
    the range, ReorderNode takes the siblings in ascending ordering, finds
    the node at the index that is its ordering, removes it there, puts it
    back at the new index and gives every sibling its index in that list
    as ordering.  Afterwards the node has the new ordering, the group is
    dense again with as many rows, the ascending list of the group is that
    list, and without the node it is the list before without the node.
    Rows outside the group are as before.  With root(1), A(2, ordering 0)
    and B(3, ordering 1), ReorderNode(2, 1) leaves B with 0 and A with 1. *)
Theorem ReorderNode_renumbers (db : Store) (nodeId new_ordering : Z) (r : Row) :
  (rows db !! nodeId = Some r →
   dense db (parent_node_id r) →
   0 ≤ new_ordering < TreeNode.count (parent_node_id r) db →
   let p := parent_node_id r in
   let before := TreeNode.findAll_ordered p db in
   let rest := delete (Z.to_nat (ordering r)) before in
   let result := take (Z.to_nat new_ordering) rest
                 ++ (nodeId, r) :: drop (Z.to_nat new_ordering) rest in
   ∃ db',
     ReorderNode nodeId new_ordering db = (Reordered, db') ∧
     before !! Z.to_nat (ordering r) = Some (nodeId, r) ∧
     (∀ i n, result !! i = Some n →
             rows db' !! id n = Some (set_ordering (Z.of_nat i) n.2)) ∧
     (∀ x, x ∉ id <$> before → rows db' !! x = rows db !! x) ∧
     ordering_of db' nodeId = Some new_ordering ∧
     dense db' p ∧
     TreeNode.count p db' = TreeNode.count p db ∧
     id <$> TreeNode.findAll_ordered p db' = id <$> result ∧
     filter (λ x, x ≠ nodeId) (id <$> TreeNode.findAll_ordered p db')
     = filter (λ x, x ≠ nodeId) (id <$> before)) ∧
  (ReorderNode 2 1 root_A_B).1 = Reordered ∧
  ordering_of (ReorderNode 2 1 root_A_B).2 3 = Some 0 ∧
  ordering_of (ReorderNode 2 1 root_A_B).2 2 = Some 1.
Proof.
  split; [|by vm_compute].
  intros Hr Hdense Hnew p before rest result.
  destruct (ReorderNode_run db nodeId new_ordering r Hr Hdense Hnew)
    as (Hrun & Hself & Hat & Hperm).
  fold p before rest result in Hrun, Hself, Hat, Hperm.
  assert (Hnd : NoDup (id <$> result)) by (rewrite Hperm; apply NoDup_findAll_ids).
  destruct (renumber_spec result 0 db Hnd) as (Hseq & Hin & Hout).
  assert (Hrow : ∀ i n, result !! i = Some n →
            rows (renumber 0 result db) !! id n
            = Some (set_ordering (Z.of_nat i) n.2)).
  { intros i n Hi. rewrite (Hin _ _ Hi).
    assert (Hn : n ∈ TreeNode.findAll p db).
    { rewrite <- Hperm. by eapply list_elem_of_lookup_2. }
    apply elem_of_findAll in Hn as [Hn _]. unfold id. by rewrite Hn. }
  assert (Hsorted : TreeNode.findAll_ordered p (renumber 0 result db)
                    = renumbered result) by (by apply findAll_ordered_renumber).
  assert (Hcount : TreeNode.count p (renumber 0 result db) = TreeNode.count p db).
  { unfold TreeNode.count. rewrite (findAll_renumber p db result Hperm).
    unfold renumbered. by rewrite length_imap, Hperm. }
  exists (renumber 0 result db). split_and!.
  - exact Hrun.
  - exact Hself.
  - exact Hrow.
  - intros x Hx. apply Hout. intros Hx'. apply Hx.
    rewrite Hperm in Hx'. unfold before. by rewrite findAll_ordered_perm.
  - unfold ordering_of. pose proof (Hrow _ _ Hat) as Hn.
    unfold id in Hn. simpl in Hn. rewrite Hn. simpl. f_equal. lia.
  - unfold dense. rewrite Hcount.
    rewrite (findAll_renumber p db result Hperm), renumbered_orderings.
    f_equal. unfold TreeNode.count. by rewrite Hperm.
  - exact Hcount.
  - by rewrite Hsorted, renumbered_ids.
  - rewrite Hsorted, renumbered_ids.
    apply (filter_delete_insert before _ _ (nodeId, r) Hself).
Qed.

Lemma ReorderNode_renumbers_witness :
  dense root_A_B_C (Some 1) ∧
  ∃ db',
    ReorderNode 3 0 root_A_B_C = (Reordered, db') ∧
    ordering_of db' 3 = Some 0 ∧
    dense db' (Some 1) ∧
    rows db' !! 4 = rows root_A_B_C !! 4.
Proof.
  assert (Hdense : dense root_A_B_C (Some 1)).
  { apply (bool_decide_unpack _). vm_compute. exact I. }
  split; [exact Hdense|].
  destruct (ReorderNode_renumbers root_A_B_C 3 0 (mkRow "B" (Some 1) 1)) as [Hgen _].
  destruct (Hgen eq_refl Hdense ltac:(vm_compute; split; [discriminate | reflexivity]))
    as (db' & Hrun & _ & _ & Hframe & Hord & Hd & _).
  exists db'. split; [exact Hrun|]. split; [exact Hord|]. split; [exact Hd|].
  apply Hframe. vm_compute. intros H.
  repeat (apply elem_of_cons in H as [H|H]; [discriminate H|]).
  by apply elem_of_nil in H.
Defined.

(** C8: for a node whose sibling group is dense, ReorderNode with the
    ordering the node already has succeeds and leaves every row, and so
    every sibling's ordering, as it was. *)
Theorem ReorderNode_same_position (db : Store) (nodeId : Z) (r : Row) :
  rows db !! nodeId = Some r →
  dense db (parent_node_id r) →
  ReorderNode nodeId (ordering r) db = (Reordered, db).
Proof.
  intros Hr Hdense.
  destruct (ordered_dense_self _ _ _ Hr Hdense) as [Hord Hself].
  destruct (ReorderNode_run db nodeId (ordering r) r Hr Hdense Hord)
    as (Hrun & _ & _ & Hperm).
  rewrite (delete_reinsert _ _ _ Hself) in Hrun, Hperm.
  rewrite Hrun. f_equal.
  set (before := TreeNode.findAll_ordered (parent_node_id r) db) in *.
  assert (Hnd : NoDup (id <$> before)) by (rewrite Hperm; apply NoDup_findAll_ids).
  destruct (renumber_spec before 0 db Hnd) as (Hseq & Hin & Hout).
  destruct (renumber 0 before db) as [m q] eqn:E, db as [m0 q0]. simpl in *.
  f_equal; [|done]. apply map_eq. intros x.
  destruct (decide (x ∈ id <$> before)) as [Hx | Hx]; [|by apply Hout].
  apply list_elem_of_fmap in Hx as (n & -> & Hn).
  apply list_elem_of_lookup in Hn as [j Hj].
  rewrite (Hin _ _ Hj).
  assert (Hn : n ∈ TreeNode.findAll (parent_node_id r) (mkStore m0 q0)).
  { rewrite <- Hperm. by eapply list_elem_of_lookup_2. }
  apply elem_of_findAll in Hn as [Hn _]. simpl in Hn. unfold id. rewrite Hn. simpl.
  rewrite <- (ordered_dense_lookup _ _ _ _ Hdense Hj).
  by rewrite set_ordering_id.
Qed.

Lemma ReorderNode_same_position_witness :
  dense root_A_B (Some 1) ∧
  ReorderNode 3 1 root_A_B = (Reordered, root_A_B).
Proof.
  assert (Hdense : dense root_A_B (Some 1)).
  { apply (bool_decide_unpack _). vm_compute. exact I. }
  split; [exact Hdense|].
  exact (ReorderNode_same_position root_A_B 3 (mkRow "B" (Some 1) 1) eq_refl Hdense).
Defined.

(** * Further properties of the handlers *)

(** ** Bootstrap *)

(** X1: the bootstrap leaves a table with a root row as it is and adds
    the root row to a table without one; it touches no other row, and
    running it twice is running it once. *)
Theorem ensure_root_idempotent (db : Store) :
  is_Some (rows (ensure_root db) !! 1) ∧
  (is_Some (rows db !! 1) → ensure_root db = db) ∧
  (rows db !! 1 = None →
   rows (ensure_root db) !! 1 = Some root_row ∧
   sequence (ensure_root db) = Z.max (sequence db) 1) ∧
  (∀ k, k ≠ 1 → rows (ensure_root db) !! k = rows db !! k) ∧
  ensure_root (ensure_root db) = ensure_root db.
Proof.
  assert (Hsome : is_Some (rows db !! 1) → ensure_root db = db).
  { intros [r Hr]. unfold ensure_root, TreeNode.findByPk, root_id. by rewrite Hr. }
  assert (Hnone : rows db !! 1 = None →
                  ensure_root db = mkStore (<[1 := root_row]> (rows db))
                                           (Z.max (sequence db) 1)).
  { intros Hr. unfold ensure_root, TreeNode.findByPk, root_id. by rewrite Hr. }
  assert (Hroot : is_Some (rows (ensure_root db) !! 1)).
  { destruct (rows db !! 1) as [r|] eqn:Hr.
    - rewrite Hsome by (by eexists). by exists r.
    - rewrite Hnone by done. simpl. rewrite lookup_insert_eq. by eexists. }
  split_and!; [done | done | | |].
  - intros Hr. rewrite (Hnone Hr). simpl. by rewrite lookup_insert_eq.
  - intros k Hk. destruct (rows db !! 1) as [r|] eqn:Hr.
    + by rewrite Hsome by (by eexists).
    + rewrite Hnone by done. simpl. by rewrite lookup_insert_ne.
  - unfold ensure_root at 1, TreeNode.findByPk, root_id.
    destruct Hroot as [r Hr]. by rewrite Hr.
Qed.

Lemma ensure_root_idempotent_witness :
  is_Some (rows root_A_B !! 1) ∧
  ensure_root root_A_B = root_A_B ∧
  rows (ensure_root empty_store) !! 1 = Some root_row.
Proof.
  assert (H1 : is_Some (rows root_A_B !! 1)) by (eexists; reflexivity).
  split; [exact H1|]. split.
  - destruct (ensure_root_idempotent root_A_B) as (_ & Hsame & _). exact (Hsame H1).
  - destruct (ensure_root_idempotent empty_store) as (_ & _ & Hnew & _).
    destruct (Hnew eq_refl) as [Hrow _]. exact Hrow.
Defined.

(** ** GetNode *)

(** X2: GetNode answers 404 for an id without row.  For an id with a
    row it answers 200 with that row and a list of children that is in
    ascending ordering, names every row whose parent is the id once and
    no other row; when the children are dense the child at index [i] has
    ordering [i]. *)
Theorem GetNode_children (nodeId : Z) (db : Store) :
  (rows db !! nodeId = None → GetNode nodeId db = NotFound) ∧
  (∀ r, rows db !! nodeId = Some r →
     ∃ children,
       GetNode nodeId db = mkResponse 200 (NodeChildrenBody (nodeId, r) children) ∧
       Sorted TreeNode.by_ordering children ∧
       NoDup (id <$> children) ∧
       (∀ n : TreeNode,
          n ∈ children ↔ rows db !! n.1 = Some n.2 ∧ parent_node_id n.2 = Some nodeId) ∧
       (dense db (Some nodeId) →
        ∀ i (n : TreeNode), children !! i = Some n → ordering n.2 = Z.of_nat i)).
Proof.
  unfold GetNode, TreeNode.findByPk. split; [by intros ->|].
  intros r ->. simpl. eexists. split; [done|]. split_and!.
  - apply (Sorted_merge_sort TreeNode.by_ordering).
  - rewrite findAll_ordered_perm. apply NoDup_findAll_ids.
  - intros n. rewrite findAll_ordered_perm. apply elem_of_findAll.
  - intros Hdense i n Hi. by eapply ordered_dense_lookup.
Qed.

Lemma GetNode_children_witness :
  rows root_A_B !! 1 = Some root_row ∧
  GetNode 9 root_A_B = NotFound ∧
  ∃ children,
    GetNode 1 root_A_B = mkResponse 200 (NodeChildrenBody (1, root_row) children) ∧
    Sorted TreeNode.by_ordering children.
Proof.
  destruct (GetNode_children 9 root_A_B) as [Hmiss _].
  destruct (GetNode_children 1 root_A_B) as [_ Hhit].
  split; [reflexivity|]. split; [apply Hmiss; reflexivity|].
  destruct (Hhit root_row eq_refl) as (children & Hget & Hsorted & _).
  exists children. split; [exact Hget | exact Hsorted].
Defined.

(** ** MoveNode: the answers other than Moved *)

Lemma isDescendant_true_inv fuel db v a :
  isDescendant fuel db v a = Some (Returned true) →
  ∃ x, key_of v = Some x ∧ descendant_or_self db a x.
Proof.
  revert v. induction fuel as [|fuel IH]; intros v; [done|].
  assert (Hstep : ∀ x,
    match TreeNode.findByPk x db with
    | Some parent => isDescendant fuel db (column (parent_node_id parent.2)) a
    | None => Some Threw
    end = Some (Returned true) → descendant_or_self db a x).
  { intros x. unfold TreeNode.findByPk.
    destruct (rows db !! x) as [r|] eqn:Hr; simpl; [|done].
    intros (p & Hp & Hdos)%IH.
    destruct (parent_node_id r) as [q|] eqn:Hq; simpl in Hp; [|done].
    injection Hp as <-. by eapply dos_child. }
  destruct v as [|x|[x|]]; simpl; try done.
  - case_bool_decide as Hx.
    + subst. intros _. exists a. split; [done | apply dos_self].
    + intros H. exists x. split; [done | by apply Hstep].
  - intros H. exists x. split; [done | by apply Hstep].
Qed.

Lemma isDescendant_threw db a x v :
  key_of v = Some x →
  dangling db a x →
  ∃ N, ∀ fuel, (N ≤ fuel)%nat → isDescendant fuel db v a = Some Threw.
Proof.
  assert (Hnum : ∀ y, dangling db a y →
            ∃ N, ∀ fuel, (N ≤ fuel)%nat →
              isDescendant fuel db (JsNumber y) a = Some Threw).
  { induction 1 as [y Hy Hr | y r p Hy Hr Hp _ [N IH]].
    - exists 1%nat. intros [|fuel] Hf; [lia|]. simpl.
      rewrite bool_decide_eq_false_2 by done.
      unfold TreeNode.findByValue, TreeNode.findByPk. simpl. by rewrite Hr.
    - exists (S N). intros [|fuel] Hf; [lia|]. simpl.
      rewrite bool_decide_eq_false_2 by done.
      unfold TreeNode.findByValue, TreeNode.findByPk. simpl. rewrite Hr. simpl.
      rewrite Hp. apply IH. lia. }
  intros Hv Hd.
  destruct v as [|k|[k|]]; simpl in Hv; try done; injection Hv as ->;
    [by apply Hnum|].
  inversion Hd as [y Hy Hr | y r p Hy Hr Hp Hd']; subst.
  - exists 1%nat. intros [|fuel] Hf; [lia|]. simpl.
    unfold TreeNode.findByValue, TreeNode.findByPk. simpl. by rewrite Hr.
  - destruct (Hnum _ Hd') as [N HN].
    exists (S N). intros [|fuel] Hf; [lia|]. simpl.
    unfold TreeNode.findByValue, TreeNode.findByPk. simpl. rewrite Hr. simpl.
    rewrite Hp. apply HN. lia.
Qed.

(** X3: MoveNode answers 404 when the node has no row or the value
    given for the new parent names no row, whatever the ids are, the root
    id included; it answers that the root cannot be moved only when both
    rows exist.  Every answer other than Moved leaves the table as it
    is. *)
Theorem MoveNode_refusals (db : Store) (nodeId : Z) (v : JsValue) :
  (rows db !! nodeId = None ∨ (∀ k, key_of v = Some k → rows db !! k = None) →
   ∀ fuel, MoveNode fuel nodeId v db = Some (MoveNotFound, db)) ∧
  (nodeId = 1 → is_Some (rows db !! nodeId) →
   (∃ k, key_of v = Some k ∧ is_Some (rows db !! k)) →
   ∀ fuel, MoveNode fuel nodeId v db = Some (MoveForbidden, db)) ∧
  (∀ fuel resp db',
     MoveNode fuel nodeId v db = Some (resp, db') →
     resp ≠ Moved → db' = db).
Proof.
  unfold MoveNode, TreeNode.findByValue, TreeNode.findByPk. split_and!.
  - intros [Hn | Hp] fuel.
    + by rewrite Hn.
    + destruct (key_of v) as [k|]; simpl.
      * rewrite (Hp k eq_refl). by destruct (rows db !! nodeId).
      * by destruct (rows db !! nodeId).
  - intros -> [r Hr] (k & Hk & [rp Hrp]) fuel. rewrite Hk. simpl. by rewrite Hr, Hrp.
  - intros fuel resp db'.
    destruct (rows db !! nodeId) as [r|]; simpl; [|by intros [= <- <-]].
    destruct (key_of v) as [k|]; simpl; [|by intros [= <- <-]].
    destruct (rows db !! k) as [rp|]; simpl; [|by intros [= <- <-]].
    case_decide; [by intros [= <- <-]|].
    destruct (isDescendant fuel db v nodeId) as [[[|]|]|];
      simpl; [by intros [= <- <-] | | by intros [= <- <-] | done].
    intros [= <- <-] Hne. by destruct Hne.
Qed.

Lemma MoveNode_refusals_witness :
  MoveNode 0 1 (JsNumber 9) root_A_B = Some (MoveNotFound, root_A_B) ∧
  MoveNode 0 1 (JsNumber 2) root_A_B = Some (MoveForbidden, root_A_B) ∧
  MoveNode 0 9 (JsNumber 2) root_A_B = Some (MoveNotFound, root_A_B) ∧
  MoveNode 0 2 JsNull root_A_B = Some (MoveNotFound, root_A_B).
Proof.
  destruct (MoveNode_refusals root_A_B 1 (JsNumber 9)) as (H19 & _).
  destruct (MoveNode_refusals root_A_B 1 (JsNumber 2)) as (_ & H12 & _).
  destruct (MoveNode_refusals root_A_B 9 (JsNumber 2)) as (H92 & _).
  destruct (MoveNode_refusals root_A_B 2 JsNull) as (H2n & _).
  split_and!.
  - apply H19. right. intros k [= <-]. reflexivity.
  - apply H12; [reflexivity | eexists; reflexivity |].
    exists 2. split; [reflexivity | eexists; reflexivity].
  - apply H92. left. reflexivity.
  - apply H2n. right. intros k [=].
Defined.

(** X4: MoveNode answers Cycle only when both rows exist, the node is
    not the root, and the row the new parent names is the node itself or
    one of its descendants. *)
Theorem MoveNode_cycle_only (fuel : nat) (db db' : Store) (nodeId : Z) (v : JsValue) :
  MoveNode fuel nodeId v db = Some (Cycle, db') →
  nodeId ≠ 1 ∧
  is_Some (rows db !! nodeId) ∧
  (∃ newParentId,
     key_of v = Some newParentId ∧
     is_Some (rows db !! newParentId) ∧
     descendant_or_self db nodeId newParentId) ∧
  db' = db.
Proof.
  unfold MoveNode, TreeNode.findByValue, TreeNode.findByPk.
  destruct (rows db !! nodeId) as [r|]; simpl; [|intros [=]].
  destruct (key_of v) as [np|] eqn:Hv; simpl; [|intros [=]].
  destruct (rows db !! np) as [rp|] eqn:Hrp; simpl; [|intros [=]].
  case_decide as Hroot; [intros [=]|].
  destruct (isDescendant fuel db v nodeId) as [[[|]|]|] eqn:Hd;
    simpl; intros [=]. subst db'.
  apply isDescendant_true_inv in Hd as (x & Hx & Hdos).
  assert (x = np) as -> by congruence.
  split; [done|]. split; [by eexists|]. split; [|done].
  exists np. split; [done|]. split; [by rewrite Hrp | done].
Qed.

Lemma MoveNode_cycle_only_witness :
  MoveNode 2 2 (JsNumber 4) root_A_B_C = Some (Cycle, root_A_B_C) ∧
  descendant_or_self root_A_B_C 2 4.
Proof.
  assert (Hrun : MoveNode 2 2 (JsNumber 4) root_A_B_C = Some (Cycle, root_A_B_C))
    by reflexivity.
  split; [exact Hrun|].
  destruct (MoveNode_cycle_only 2 root_A_B_C root_A_B_C 2 (JsNumber 4) Hrun)
    as (_ & _ & (np & Hnp & _ & Hdos) & _).
  injection Hnp as <-. exact Hdos.
Defined.

(** X5: when the chain of parents of the new parent reaches an id
    without row before it meets the node, the cycle check throws and
    MoveNode answers 500, with the table as it was. *)
Theorem MoveNode_dangling_parent (db : Store) (nodeId newParentId : Z) (v : JsValue) :
  nodeId ≠ 1 →
  is_Some (rows db !! nodeId) →
  is_Some (rows db !! newParentId) →
  key_of v = Some newParentId →
  dangling db nodeId newParentId →
  ∃ N, ∀ fuel, (N ≤ fuel)%nat →
    MoveNode fuel nodeId v db = Some (MoveError, db).
Proof.
  intros Hroot [r Hr] [rp Hrp] Hv Hd.
  destruct (isDescendant_threw _ _ _ _ Hv Hd) as [N HN].
  exists N. intros fuel Hf.
  unfold MoveNode, TreeNode.findByValue, TreeNode.findByPk.
  rewrite (HN fuel Hf). rewrite Hv. simpl.
  rewrite Hr, Hrp. simpl. by rewrite decide_False by done.
Qed.

Lemma MoveNode_dangling_parent_witness :
  dangling root_A_B_E 2 5 ∧
  ∃ N, ∀ fuel, (N ≤ fuel)%nat →
    MoveNode fuel 2 (JsNumber 5) root_A_B_E = Some (MoveError, root_A_B_E).
Proof.
  assert (Hd : dangling root_A_B_E 2 5).
  { eapply dangling_up; [lia | reflexivity | reflexivity |].
    apply dangling_here; [lia | reflexivity]. }
  split; [exact Hd|].
  apply (MoveNode_dangling_parent root_A_B_E 2 5);
    [lia | eexists; reflexivity | eexists; reflexivity | reflexivity | exact Hd].
Defined.

(** ** ReorderNode on any table *)

Lemma set_ordering_twice o o' r : set_ordering o (set_ordering o' r) = set_ordering o r.
Proof. done. Qed.

(** The loop writes orderings and nothing else. *)
Lemma renumber_rows (l : list TreeNode) :
  ∀ i db x, ∃ o, rows (renumber i l db) !! x = set_ordering o <$> rows db !! x.
Proof.
  induction l as [|n l IH]; intros i db x.
  - simpl. destruct (rows db !! x) as [r|]; [|by exists 0].
    exists (ordering r). simpl. by rewrite set_ordering_id.
  - simpl. destruct (IH (S i) (TreeNode.update_ordering (Z.of_nat i) (id n) db) x)
      as [o Ho].
    exists o. rewrite Ho. simpl. rewrite lookup_alter. case_decide; [|done].
    subst x. by destruct (rows db !! id n).
Qed.

Lemma renumber_sequence (l : list TreeNode) :
  ∀ i db, sequence (renumber i l db) = sequence db.
Proof. induction l as [|n l IH]; intros i db; [done|]. simpl. by rewrite IH. Qed.

Lemma renumber_out (l : list TreeNode) :
  ∀ i db x, x ∉ id <$> l → rows (renumber i l db) !! x = rows db !! x.
Proof.
  induction l as [|n l IH]; intros i db x Hx; [done|].
  rewrite fmap_cons in Hx. apply not_elem_of_cons in Hx as [Hn Hl].
  simpl. rewrite IH by done. simpl. by rewrite lookup_alter_ne.
Qed.

Lemma elem_of_splice_remove {A} (start : Z) (l : list A) x :
  x ∈ splice_remove start l → x ∈ l.
Proof. apply list_elem_of_delete_inv. Qed.

Lemma elem_of_splice_insert {A} (start : Z) (y : A) (l : list A) x :
  x ∈ splice_insert start y l → x = y ∨ x ∈ l.
Proof.
  unfold splice_insert. intros [Hx | [-> | Hx]%elem_of_cons]%elem_of_app.
  - right. by eapply subseteq_take.
  - by left.
  - right. by eapply subseteq_drop.
Qed.

(** X6: on every table and for every request, dense group or not,
    ReorderNode writes nothing but orderings: the keys, titles and parents
    of all rows and the counter are as before, and so is every row whose
    parent is not the parent of the node. *)
Theorem ReorderNode_writes_orderings_only (nodeId new_ordering : Z) (db : Store) :
  let db' := (ReorderNode nodeId new_ordering db).2 in
  sequence db' = sequence db ∧
  (∀ x, title <$> rows db' !! x = title <$> rows db !! x) ∧
  (∀ x, parent_node_id <$> rows db' !! x = parent_node_id <$> rows db !! x) ∧
  (∀ r x rx, rows db !! nodeId = Some r → rows db !! x = Some rx →
             parent_node_id rx ≠ parent_node_id r →
             rows db' !! x = Some rx).
Proof.
  unfold ReorderNode, TreeNode.findByPk.
  destruct (rows db !! nodeId) as [r|] eqn:Hr; simpl.
  2:{ split_and!; [done..|]. by intros. }
  destruct ((new_ordering <? 0)
            || (Z.of_nat (length (TreeNode.findAll_ordered (parent_node_id r) db))
                <=? new_ordering)); simpl.
  { split_and!; [done..|]. by intros. }
  split_and!.
  - apply renumber_sequence.
  - intros x. destruct (renumber_rows
      (splice_insert new_ordering (nodeId, r)
         (splice_remove (ordering r) (TreeNode.findAll_ordered (parent_node_id r) db)))
      0 db x) as [o ->].
    by destruct (rows db !! x).
  - intros x. destruct (renumber_rows
      (splice_insert new_ordering (nodeId, r)
         (splice_remove (ordering r) (TreeNode.findAll_ordered (parent_node_id r) db)))
      0 db x) as [o ->].
    by destruct (rows db !! x).
  - intros r0 x rx [= <-] Hx Hp. rewrite renumber_out; [done|].
    intros (n & -> & Hn)%list_elem_of_fmap.
    assert (Hn' : n ∈ TreeNode.findAll (parent_node_id r) db).
    { apply elem_of_splice_insert in Hn as [-> | Hn]; [by apply elem_of_findAll|].
      apply elem_of_splice_remove in Hn. by rewrite findAll_ordered_perm in Hn. }
    apply elem_of_findAll in Hn' as [Hrow Hpar]. unfold id in Hx.
    rewrite Hrow in Hx. injection Hx as <-. done.
Qed.

Lemma ReorderNode_writes_orderings_only_witness :
  rows root_A_B_C !! 3 = Some (mkRow "B" (Some 1) 1) ∧
  rows (ReorderNode 3 0 root_A_B_C).2 !! 4 = Some (mkRow "C" (Some 2) 0).
Proof.
  split; [reflexivity|].
  destruct (ReorderNode_writes_orderings_only 3 0 root_A_B_C) as (_ & _ & _ & Hout).
  apply (Hout (mkRow "B" (Some 1) 1) 4 (mkRow "C" (Some 2) 0)); [reflexivity..|].
  simpl. discriminate.
Defined.

(** ** The tree and its root under the handlers *)

Lemma depth_is_mono s t o d : rows s ⊆ rows t → depth_is s o d → depth_is t o d.
Proof.
  intros Hsub. induction 1 as [|x r d Hx _ IH]; [constructor|].
  econstructor; [|done]. by eapply lookup_weaken.
Qed.

Lemma depth_is_same_parents db db' o d :
  (∀ x, parent_node_id <$> rows db' !! x = parent_node_id <$> rows db !! x) →
  depth_is db o d → depth_is db' o d.
Proof.
  intros Hsame. induction 1 as [|x r d Hx _ IH]; [constructor|].
  pose proof (Hsame x) as Hp. rewrite Hx in Hp.
  destruct (rows db' !! x) as [r'|] eqn:Hx'; [|done].
  simpl in Hp. injection Hp as Hp. econstructor; [done|]. by rewrite Hp.
Qed.

Lemma tree_wf_same_parents db db' :
  (∀ x, parent_node_id <$> rows db' !! x = parent_node_id <$> rows db !! x) →
  tree_wf db → tree_wf db'.
Proof.
  intros Hsame Hwf x r' Hx'.
  pose proof (Hsame x) as Hp. rewrite Hx' in Hp.
  destruct (rows db !! x) as [r|] eqn:Hx; [|done].
  destruct (Hwf _ _ Hx) as [d Hd]. exists d. by eapply depth_is_same_parents.
Qed.

Lemma root_ok_same_parents db db' :
  (∀ x, parent_node_id <$> rows db' !! x = parent_node_id <$> rows db !! x) →
  root_ok db → root_ok db'.
Proof.
  intros Hsame (r & Hr & Hp). pose proof (Hsame root_id) as Hs. rewrite Hr in Hs.
  destruct (rows db' !! root_id) as [r'|] eqn:Hr'; [|done].
  simpl in Hs. injection Hs as Hs. exists r'. split; [done | congruence].
Qed.

(** X7: InsertNode keeps the table a tree: when every chain of parents
    ends before the insert, every chain ends after it, the new row's
    included; a root row without parent stays as it is. *)
Theorem InsertNode_keeps_tree (parentId : Z) (t : string) (db : Store) :
  let db' := (InsertNode parentId t db).2 in
  (tree_wf db → tree_wf db') ∧
  (root_ok db → root_ok db').
Proof.
  unfold InsertNode, TreeNode.findByPk, TreeNode.create.
  destruct (rows db !! parentId) as [rp|] eqn:Hp; simpl; [|done].
  pose proof (next_rowid_fresh db) as Hfresh.
  set (k := TreeNode.next_rowid db) in *.
  assert (Hsub : rows db ⊆ <[k := mkRow t (Some parentId)
                                 (TreeNode.count (Some parentId) db)]> (rows db))
    by (by apply insert_subseteq).
  split.
  - intros Hwf x r Hx. simpl in Hx.
    destruct (decide (x = k)) as [-> | Hne].
    + rewrite lookup_insert_eq in Hx. injection Hx as <-.
      destruct (Hwf _ _ Hp) as [d Hd]. exists (S d).
      econstructor; [simpl; by rewrite lookup_insert_eq|]. simpl.
      by eapply (depth_is_mono db).
    + rewrite lookup_insert_ne in Hx by done.
      destruct (Hwf _ _ Hx) as [d Hd]. exists d. by eapply (depth_is_mono db).
  - intros (r & Hr & Hnull). exists r. split; [|done]. simpl.
    rewrite lookup_insert_ne; [done|]. intros Heq. rewrite Heq in Hfresh. congruence.
Qed.

Lemma InsertNode_keeps_tree_witness :
  tree_wf root_A_B_C ∧ tree_wf (InsertNode 4 "D" root_A_B_C).2.
Proof.
  assert (Hwf : tree_wf root_A_B_C) by (apply tree_wfb_sound; vm_compute; reflexivity).
  split; [exact Hwf|].
  destruct (InsertNode_keeps_tree 4 "D" root_A_B_C) as [Htree _]. exact (Htree Hwf).
Defined.

Lemma isDescendant_false_inv fuel db o a :
  isDescendant fuel db (column o) a = Some (Returned false) →
  (∃ d, depth_is db o d) ∧ (∀ x, o = Some x → ¬ descendant_or_self db a x).
Proof.
  revert o. induction fuel as [|fuel IH]; intros o; [done|]. simpl.
  destruct o as [x|]; [|intros _; split; [exists 0%nat; constructor | done]].
  simpl. case_bool_decide as Hx; [done|].
  unfold TreeNode.findByValue, TreeNode.findByPk. simpl.
  destruct (rows db !! x) as [r|] eqn:Hr; simpl; [|done].
  intros [[d Hd] Hno]%IH. split; [exists (S d); by econstructor|].
  intros y [= <-] Hdos.
  inversion Hdos as [|x' r' p Hx' Hp Hdos']; subst; [done|].
  assert (r' = r) as -> by congruence. by eapply Hno.
Qed.

(** A check that returns false on a value other than the string form of
    the node's own id walked a chain that ends and does not meet the
    node. *)
Lemma isDescendant_false_inv_value fuel db v a x :
  isDescendant fuel db v a = Some (Returned false) →
  key_of v = Some x →
  v ≠ JsOther (Some a) →
  (∃ d, depth_is db (Some x) d) ∧ ¬ descendant_or_self db a x.
Proof.
  intros Hrun Hv Hne.
  destruct v as [|k|[k|]]; simpl in Hv; try done; injection Hv as ->.
  - apply (isDescendant_false_inv fuel db (Some x) a) in Hrun as [Hd Hno].
    split; [done | by apply Hno].
  - assert (Hxa : x ≠ a) by congruence.
    destruct fuel as [|fuel]; [done|]. simpl in Hrun.
    unfold TreeNode.findByValue, TreeNode.findByPk in Hrun. simpl in Hrun.
    destruct (rows db !! x) as [r|] eqn:Hr; simpl in Hrun; [|done].
    apply isDescendant_false_inv in Hrun as [[d Hd] Hno].
    split; [exists (S d); by econstructor|].
    intros Hdos. inversion Hdos as [|x' r' p Hx' Hp Hdos']; subst; [done|].
    assert (r' = r) as -> by congruence. by eapply Hno.
Qed.

Lemma tree_wf_move db nodeId newParentId r' d :
  tree_wf db →
  parent_node_id r' = Some newParentId →
  depth_is db (Some newParentId) d →
  ¬ descendant_or_self db nodeId newParentId →
  tree_wf (mkStore (<[nodeId := r']> (rows db)) (sequence db)).
Proof.
  intros Hwf Hpar Hd Hno.
  set (db' := mkStore (<[nodeId := r']> (rows db)) (sequence db)).
  assert (Hkeep : ∀ o e, depth_is db o e →
            (∀ x, o = Some x → ¬ descendant_or_self db nodeId x) →
            depth_is db' o e).
  { induction 1 as [|x r e Hx _ IH]; intros Hav; [constructor|].
    assert (x ≠ nodeId) by (intros ->; eapply Hav; [done | apply dos_self]).
    econstructor; [simpl; by rewrite lookup_insert_ne|].
    apply IH. intros y Hy Hdos. eapply Hav; [done|]. by eapply dos_child. }
  assert (Hnode : depth_is db' (Some nodeId) (S d)).
  { econstructor; [simpl; by rewrite lookup_insert_eq|]. rewrite Hpar.
    apply Hkeep; [done|]. by intros x [= <-]. }
  assert (Hall : ∀ o e, depth_is db o e → ∃ e', depth_is db' o e').
  { induction 1 as [|x r e Hx _ [e' IH]]; [exists 0%nat; constructor|].
    destruct (decide (x = nodeId)) as [-> | Hne]; [by eexists|].
    exists (S e'). econstructor; [simpl; by rewrite lookup_insert_ne|done]. }
  intros x rx Hx. destruct (decide (x = nodeId)) as [-> | Hne]; [by eexists|].
  simpl in Hx. rewrite lookup_insert_ne in Hx by done.
  destruct (Hwf _ _ Hx) as [e He]. by eapply Hall.
Qed.

(** X8: MoveNode keeps a root row without parent, whatever it is
    given and whatever it answers.  It keeps the table a tree whenever the
    value given for the new parent is not one that is no number and that
    the database reads as the node's own id (the id as a string): when
    every chain of parents ends before the move, every chain ends after
    it.  With such a value a move that answers 200 has made the node its
    own parent, and the table is no tree any more. *)
Theorem MoveNode_keeps_tree (fuel : nat) (db db' : Store) (nodeId : Z) (v : JsValue)
    (resp : Response) :
  MoveNode fuel nodeId v db = Some (resp, db') →
  (root_ok db → root_ok db') ∧
  (v ≠ JsOther (Some nodeId) → tree_wf db → tree_wf db') ∧
  (v = JsOther (Some nodeId) → resp = Moved →
   (∃ r, rows db' !! nodeId = Some r ∧ parent_node_id r = Some nodeId) ∧
   ¬ tree_wf db').
Proof.
  intros Hrun.
  assert (Hcases : (resp ≠ Moved ∧ db' = db) ∨
    (resp = Moved ∧ ∃ r np, nodeId ≠ 1 ∧ rows db !! nodeId = Some r ∧
       key_of v = Some np ∧
       isDescendant fuel db v nodeId = Some (Returned false) ∧
       db' = mkStore (<[nodeId := mkRow (title r) (Some np)
                                    (TreeNode.count (Some np) db)]> (rows db))
                     (sequence db))).
  { revert Hrun. unfold MoveNode, TreeNode.findByValue, TreeNode.findByPk.
    destruct (rows db !! nodeId) as [r|] eqn:Hr; simpl;
      [|intros [= <- <-]; by left].
    destruct (key_of v) as [np|] eqn:Hv; simpl; [|intros [= <- <-]; by left].
    destruct (rows db !! np) as [rp|] eqn:Hrp; simpl;
      [|intros [= <- <-]; by left].
    case_decide as Hroot; [intros [= <- <-]; by left|].
    destruct (isDescendant fuel db v nodeId) as [[[|]|]|] eqn:Hd;
      simpl; [intros [= <- <-]; by left | | intros [= <- <-]; by left | done].
    intros [= <- <-]. right. split; [done|]. exists r, np.
    split_and!; [done..|].
    unfold TreeNode.save. simpl. by rewrite (alter_lookup_Some _ _ r). }
  destruct Hcases as [[Hresp ->] | (-> & r & np & Hroot & Hr & Hv & Hd & ->)].
  { split_and!; [done | done |]. by intros _ ?. }
  split_and!.
  - intros (r1 & Hr1 & Hnull). exists r1. split; [|done]. simpl.
    rewrite lookup_insert_ne; [done|]. by intros ->.
  - intros Hne Hwf.
    destruct (isDescendant_false_inv_value _ _ _ _ _ Hd Hv Hne) as [[d Hdp] Hno].
    by eapply tree_wf_move.
  - intros -> _. simpl in Hv. injection Hv as <-. split.
    + eexists. split; [simpl; by rewrite lookup_insert_eq | done].
    + intros Hwf.
      destruct (Hwf nodeId (mkRow (title r) (Some nodeId)
                              (TreeNode.count (Some nodeId) db))) as [d Hdep];
        [simpl; by rewrite lookup_insert_eq|].
      inversion Hdep as [|x' r' d' Hx' Hd']; subst.
      simpl in Hx'. rewrite lookup_insert_eq in Hx'. injection Hx' as <-.
      simpl in Hd'. pose proof (depth_is_functional _ _ _ _ Hdep Hd'). lia.
Qed.

Lemma MoveNode_keeps_tree_witness :
  tree_wf root_A_B_C ∧
  (∃ db', MoveNode 4 3 (JsNumber 4) root_A_B_C = Some (Moved, db') ∧ tree_wf db') ∧
  (∃ db', MoveNode 4 3 (JsOther (Some 3)) root_A_B_C = Some (Moved, db') ∧
          ¬ tree_wf db').
Proof.
  assert (Hwf : tree_wf root_A_B_C) by (apply tree_wfb_sound; vm_compute; reflexivity).
  split; [exact Hwf|]. split.
  - eexists. split; [reflexivity|].
    destruct (MoveNode_keeps_tree 4 root_A_B_C _ 3 (JsNumber 4) Moved eq_refl)
      as (_ & Htree & _).
    apply Htree; [discriminate | exact Hwf].
  - eexists. split; [reflexivity|].
    destruct (MoveNode_keeps_tree 4 root_A_B_C _ 3 (JsOther (Some 3)) Moved eq_refl)
      as (_ & _ & Hself).
    destruct (Hself eq_refl eq_refl) as [_ Hnot]. exact Hnot.
Defined.

(** ** DeleteNode on any table *)

Lemma removes_refl db : removes db db (λ x, ∃ c : TreeNode, c ∈ [] ∧ descendant_or_self db (id c) x).
Proof.
  split_and!; [done | done | by intros x (c & ?%elem_of_nil & _) |].
  intros x [r Hx] Hx'. congruence.
Qed.

(** One more child done. *)
Lemma removes_step s t t1 (seen : list TreeNode) (c : TreeNode) :
  removes s t (λ x, ∃ c', c' ∈ seen ∧ descendant_or_self s (id c') x) →
  removes t t1 (descendant_or_self t (id c)) →
  removes s t1 (λ x, ∃ c', c' ∈ seen ++ [c] ∧ descendant_or_self s (id c') x).
Proof.
  intros (Hsub & Hseq & Hgone & Hwhy) (Hsub1 & Hseq1 & Hgone1 & Hwhy1).
  split_and!.
  - by etrans.
  - congruence.
  - intros x (c' & [Hc' | ->%list_elem_of_singleton]%elem_of_app & Hdos).
    + eapply lookup_weaken_None; [|exact Hsub1]. apply Hgone. eauto.
    + destruct (dos_cut s t _ _ Hsub Hdos) as [Ht | (y & Hyx & Hsy & Hty)].
      * by apply Hgone1.
      * eapply lookup_weaken_None; [|exact Hsub1].
        destruct (Hwhy y Hsy Hty) as (c' & Hc' & Hc'y).
        apply Hgone. exists c'. split; [done|]. by eapply dos_trans.
  - intros x Hsx Ht1x.
    destruct (rows t !! x) as [r|] eqn:Htx.
    + exists c. split; [apply elem_of_app; right; by left|].
      eapply dos_mono; [exact Hsub|]. apply Hwhy1; [by rewrite Htx | done].
    + destruct (Hwhy x Hsx Htx) as (c' & Hc' & Hdos).
      exists c'. split; [apply elem_of_app; by left | done].
Qed.

(** The children done, the row itself goes. *)
Lemma removes_destroy db t k :
  removes db t (λ x, ∃ c : TreeNode,
                  c ∈ TreeNode.findAll (Some k) db ∧ descendant_or_self db (id c) x) →
  removes db (TreeNode.destroy k t) (descendant_or_self db k).
Proof.
  intros (Hsub & Hseq & Hgone & Hwhy). split_and!; simpl.
  - etrans; [apply delete_subseteq | done].
  - done.
  - intros x Hdos. apply lookup_delete_None.
    destruct (dos_children _ _ _ Hdos) as [-> | (c & Hc & Hcx)]; [by left|].
    right. apply Hgone. eauto.
  - intros x Hx [-> | Htx]%lookup_delete_None; [apply dos_self|].
    destruct (Hwhy x Hx Htx) as (c & Hc & Hcx).
    eapply dos_trans; [|done]. by apply child_dos.
Qed.

Section delete_any_table.
Variable fuel : nat.

Hypothesis calls :
  ∀ k db db', deleteNodeAndDescendants fuel k db = Some db' →
              removes db db' (descendant_or_self db k).

Lemma for_each_child_partial s (children seen : list TreeNode) t t' :
  removes s t (λ x, ∃ c, c ∈ seen ∧ descendant_or_self s (id c) x) →
  for_each (λ child, deleteNodeAndDescendants fuel (id child)) children t = Some t' →
  removes s t' (λ x, ∃ c, c ∈ seen ++ children ∧ descendant_or_self s (id c) x).
Proof.
  revert seen t. induction children as [|c children IH]; intros seen t Hinv.
  { simpl. intros [= <-]. by rewrite app_nil_r. }
  simpl. destruct (deleteNodeAndDescendants fuel (id c) t) as [t1|] eqn:E; [|done].
  simpl. intros Hrun.
  replace (seen ++ c :: children) with ((seen ++ [c]) ++ children)
    by (by rewrite <- app_assoc).
  eapply IH; [|done]. eapply removes_step; [done|]. by apply calls.
Qed.
End delete_any_table.

(** Whenever the helper ends, on whatever table, it has removed [k] and
    what is below it, and nothing else. *)
Lemma deleteNodeAndDescendants_partial fuel :
  ∀ k db db', deleteNodeAndDescendants fuel k db = Some db' →
              removes db db' (descendant_or_self db k).
Proof.
  induction fuel as [|fuel IH]; intros k db db'; [done|]. simpl.
  destruct (for_each _ _ db) as [t|] eqn:E; [|done]. simpl. intros [= <-].
  apply removes_destroy.
  apply (for_each_child_partial fuel IH db _ [] db t (removes_refl db) E).
Qed.

(** X9: on every table, a tree or not, a DeleteNode that answers has
    either refused the root and changed nothing, or answered 200 and
    removed exactly the rows of the id and of its descendants; this
    holds for an id without row as well, whose descendants are then the
    rows that name it as an ancestor. *)
Theorem DeleteNode_any_table (fuel : nat) (db db' : Store) (nodeId : Z)
    (resp : Response) :
  DeleteNode fuel nodeId db = Some (resp, db') →
  (nodeId = 1 ∧ resp = DeleteForbidden ∧ db' = db) ∨
  (nodeId ≠ 1 ∧ resp = Deleted ∧
   sequence db' = sequence db ∧
   (∀ x, descendant_or_self db nodeId x → rows db' !! x = None) ∧
   (∀ x, ¬ descendant_or_self db nodeId x → rows db' !! x = rows db !! x)).
Proof.
  unfold DeleteNode. case_decide as Hroot; [intros [= <- <-]; by left|].
  destruct (deleteNodeAndDescendants fuel nodeId db) as [t|] eqn:E; [|done].
  simpl. intros [= <- <-]. right.
  apply deleteNodeAndDescendants_partial in E.
  split_and!; [done | done | by destruct E as (_ & ? & _) | by destruct E as (_ & _ & ? & _) |].
  intros x Hx. by eapply removes_frame.
Qed.

Lemma DeleteNode_any_table_witness :
  ∃ db', DeleteNode 2 8 root_A_B_E = Some (Deleted, db') ∧
         rows db' !! 5 = None ∧
         rows db' !! 2 = rows root_A_B_E !! 2.
Proof.
  eexists. split; [reflexivity|].
  destruct (DeleteNode_any_table 2 root_A_B_E _ 8 Deleted eq_refl)
    as [(Hroot & _) | (_ & _ & _ & Hgone & Hframe)]; [discriminate Hroot|].
  split.
  - apply Hgone. eapply dos_child; [reflexivity | reflexivity | apply dos_self].
  - reflexivity.
Defined.

Lemma tree_wf_removes db db' k :
  removes db db' (descendant_or_self db k) → tree_wf db → tree_wf db'.
Proof.
  intros (Hsub & _ & Hgone & Hwhy) Hwf.
  assert (Hkeep : ∀ o d, depth_is db o d →
            (∀ x, o = Some x → is_Some (rows db' !! x)) → depth_is db' o d).
  { induction 1 as [|x r d Hx Hd IH]; intros Hin; [constructor|].
    destruct (Hin x eq_refl) as [r' Hx'].
    assert (r' = r) as -> by (pose proof (lookup_weaken _ _ _ _ Hx' Hsub); congruence).
    econstructor; [done|]. apply IH. intros p Hp.
    rewrite Hp in Hd. inversion Hd as [|p' rp d' Hrp _]; subst.
    destruct (rows db' !! p) as [rp'|] eqn:Hp'; [by eexists|]. exfalso.
    assert (Hdos : descendant_or_self db k x).
    { eapply dos_child; [done | done |]. apply Hwhy; [by eexists | done]. }
    apply Hgone in Hdos. congruence. }
  intros x r Hx. destruct (Hwf x r) as [d Hd]; [by eapply lookup_weaken|].
  exists d. apply Hkeep; [done|]. intros ? [= <-]. by eexists.
Qed.

(** X10: DeleteNode keeps the table a tree, whatever it answers: when
    every chain of parents ends before the call, every chain ends after
    it (no row is left whose parent was deleted); a root row without
    parent is never deleted. *)
Theorem DeleteNode_keeps_tree (fuel : nat) (db db' : Store) (nodeId : Z)
    (resp : Response) :
  DeleteNode fuel nodeId db = Some (resp, db') →
  (tree_wf db → tree_wf db') ∧ (root_ok db → root_ok db').
Proof.
  unfold DeleteNode. case_decide as Hroot; [by intros [= <- <-]|].
  destruct (deleteNodeAndDescendants fuel nodeId db) as [t|] eqn:E; [|done].
  simpl. intros [= <- <-].
  apply deleteNodeAndDescendants_partial in E. split.
  - by apply (tree_wf_removes db t nodeId).
  - intros (r & Hr & Hnull). exists r. split; [|done].
    rewrite (removes_frame _ _ _ root_id E); [done|].
    intros Hdos. inversion Hdos as [|x r' p Hx Hp _]; subst; [done|].
    congruence.
Qed.

Lemma DeleteNode_keeps_tree_witness :
  tree_wf root_A_B_C ∧
  ∃ db', DeleteNode 3 2 root_A_B_C = Some (Deleted, db') ∧ tree_wf db' ∧ root_ok db'.
Proof.
  assert (Hwf : tree_wf root_A_B_C) by (apply tree_wfb_sound; vm_compute; reflexivity).
  split; [exact Hwf|]. eexists. split; [reflexivity|].
  destruct (DeleteNode_keeps_tree 3 root_A_B_C _ 2 Deleted eq_refl) as [Htree Hroot].
  split; [exact (Htree Hwf)|]. apply Hroot.
  exists root_row. split; reflexivity.
Defined.

Lemma ReorderNode_same_parents nodeId new_ordering db x :
  parent_node_id <$> rows (ReorderNode nodeId new_ordering db).2 !! x
  = parent_node_id <$> rows db !! x.
Proof.
  unfold ReorderNode, TreeNode.findByPk.
  destruct (rows db !! nodeId) as [r|]; simpl; [|done].
  destruct ((new_ordering <? 0) || _); simpl; [done|].
  destruct (renumber_rows
      (splice_insert new_ordering (nodeId, r)
         (splice_remove (ordering r) (TreeNode.findAll_ordered (parent_node_id r) db)))
      0 db x) as [o ->].
  by destruct (rows db !! x).
Qed.

Lemma UpdateNode_same_parents nodeId t db x :
  parent_node_id <$> rows (UpdateNode nodeId t db).2 !! x
  = parent_node_id <$> rows db !! x.
Proof.
  unfold UpdateNode, TreeNode.findByPk.
  destruct (rows db !! nodeId) as [r|] eqn:Hr; simpl; [|done].
  rewrite lookup_alter. case_decide; [|done]. subst. by rewrite Hr.
Qed.

(** X11: UpdateNode and ReorderNode keep the table a tree and keep a
    root row without parent, for every request. *)
Theorem UpdateNode_ReorderNode_keep_tree (nodeId new_ordering : Z) (t : string)
    (db : Store) :
  (tree_wf db → tree_wf (UpdateNode nodeId t db).2) ∧
  (root_ok db → root_ok (UpdateNode nodeId t db).2) ∧
  (tree_wf db → tree_wf (ReorderNode nodeId new_ordering db).2) ∧
  (root_ok db → root_ok (ReorderNode nodeId new_ordering db).2).
Proof.
  split_and!.
  - apply tree_wf_same_parents. apply UpdateNode_same_parents.
  - apply root_ok_same_parents. apply UpdateNode_same_parents.
  - apply tree_wf_same_parents. apply ReorderNode_same_parents.
  - apply root_ok_same_parents. apply ReorderNode_same_parents.
Qed.

Lemma UpdateNode_ReorderNode_keep_tree_witness :
  tree_wf root_A_B_C ∧
  tree_wf (UpdateNode 2 "New" root_A_B_C).2 ∧
  tree_wf (ReorderNode 3 0 root_A_B_C).2.
Proof.
  assert (Hwf : tree_wf root_A_B_C) by (apply tree_wfb_sound; vm_compute; reflexivity).
  destruct (UpdateNode_ReorderNode_keep_tree 2 0 "New" root_A_B_C) as (Hu & _ & _ & _).
  destruct (UpdateNode_ReorderNode_keep_tree 3 0 "New" root_A_B_C) as (_ & _ & Hr & _).
  split; [exact Hwf|]. split; [exact (Hu Hwf) | exact (Hr Hwf)].
Defined.

(** ** The density invariant under the handlers *)

Lemma seqZ_snoc_perm (n : nat) :
  Z.of_nat n :: seqZ 0 (Z.of_nat n) ≡ₚ seqZ 0 (Z.of_nat (S n)).
Proof. rewrite seqZ_S. simpl. apply Permutation_cons_append. Qed.

Lemma dense_perm db q (l : list TreeNode) :
  TreeNode.findAll q db ≡ₚ l →
  (dense db q ↔
   (λ n : TreeNode, ordering n.2) <$> l ≡ₚ seqZ 0 (Z.of_nat (length l))).
Proof.
  intros Hl. unfold dense, TreeNode.count. rewrite (Permutation_length Hl).
  split; intros H; rewrite <- H; apply fmap_Permutation; [by symmetry | done].
Qed.

(** A group that gains a row with the ordering "number of rows". *)
Lemma dense_gain db db' q (n : TreeNode) :
  TreeNode.findAll q db' ≡ₚ n :: TreeNode.findAll q db →
  ordering n.2 = TreeNode.count q db →
  dense db q → dense db' q.
Proof.
  intros Hperm Hord Hdense. apply (dense_perm _ _ _ Hperm).
  rewrite fmap_cons, Hord. unfold dense in Hdense. rewrite Hdense.
  unfold TreeNode.count. simpl length. apply seqZ_snoc_perm.
Qed.

(** X12: InsertNode keeps the density invariant of every sibling
    group: a group that has the orderings 0..n-1 before the insert has
    the orderings 0..n'-1 for its n' rows after it. *)
Theorem InsertNode_keeps_dense (parentId : Z) (t : string) (db : Store)
    (q : option Z) :
  dense db q → dense (InsertNode parentId t db).2 q.
Proof.
  unfold InsertNode, TreeNode.findByPk, TreeNode.create.
  destruct (rows db !! parentId) as [rp|]; simpl; [|done].
  intros Hdense. pose proof (next_rowid_fresh db) as Hfresh.
  pose proof (findAll_insert_fresh q _
                (mkRow t (Some parentId) (TreeNode.count (Some parentId) db))
                db (TreeNode.next_rowid db) Hfresh) as Hperm.
  rewrite filter_cons, filter_nil in Hperm. simpl in Hperm.
  case_decide as Hq.
  - subst q. simpl in Hperm. eapply dense_gain; [exact Hperm | done | done].
  - simpl in Hperm. by apply (dense_perm _ _ _ Hperm).
Qed.

Lemma InsertNode_keeps_dense_witness :
  dense root_A_B (Some 1) ∧ dense (InsertNode 1 "C" root_A_B).2 (Some 1).
Proof.
  assert (Hdense : dense root_A_B (Some 1)).
  { apply (bool_decide_unpack _). vm_compute. exact I. }
  split; [exact Hdense|].
  exact (InsertNode_keeps_dense 1 "C" root_A_B (Some 1) Hdense).
Defined.

Lemma filter_ne_last (n : nat) :
  filter (λ o, o ≠ Z.of_nat n) (seqZ 0 (Z.of_nat (S n))) = seqZ 0 (Z.of_nat n).
Proof.
  rewrite seqZ_S, filter_app, filter_cons, filter_nil. simpl.
  rewrite decide_False by (intros ?; done). rewrite app_nil_r.
  apply filter_ne_fresh. intros Hin%elem_of_seqZ. lia.
Qed.

(** A dense group that loses the row [k] and keeps the other rows as
    they are. *)
Lemma dense_lose db db' k r :
  rows db !! k = Some r →
  dense db (parent_node_id r) →
  TreeNode.findAll (parent_node_id r) db'
    ≡ₚ TreeNode.findAll (parent_node_id r) (TreeNode.destroy k db) →
  let n := TreeNode.count (parent_node_id r) db in
  TreeNode.count (parent_node_id r) db' = n - 1 ∧
  (λ m : TreeNode, ordering m.2) <$> TreeNode.findAll (parent_node_id r) db'
    ≡ₚ filter (λ o, o ≠ ordering r) (seqZ 0 n) ∧
  (dense db' (parent_node_id r) ↔ ordering r = n - 1).
Proof.
  intros Hk Hdense Hperm n.
  set (rest := TreeNode.findAll (parent_node_id r) (TreeNode.destroy k db)) in *.
  pose proof (findAll_split (parent_node_id r) k r db Hk) as Hsplit.
  rewrite filter_cons, decide_True, filter_nil in Hsplit by done.
  simpl in Hsplit. fold rest in Hsplit.
  assert (Hn : n = Z.of_nat (S (length rest))).
  { subst n. unfold TreeNode.count. by rewrite Hsplit. }
  assert (Hbefore : ordering r :: ((λ m : TreeNode, ordering m.2) <$> rest)
                    ≡ₚ seqZ 0 n).
  { unfold dense in Hdense. fold n in Hdense. rewrite <- Hdense, Hsplit. done. }
  assert (Hfresh : ordering r ∉ (λ m : TreeNode, ordering m.2) <$> rest).
  { pose proof (NoDup_seqZ 0 n) as Hnd. rewrite <- Hbefore in Hnd.
    by apply NoDup_cons in Hnd as [? _]. }
  assert (Hrest : (λ m : TreeNode, ordering m.2) <$> rest
                  ≡ₚ filter (λ o, o ≠ ordering r) (seqZ 0 n)).
  { rewrite <- Hbefore. rewrite filter_cons, decide_False by (intros ?; done).
    by rewrite filter_ne_fresh. }
  split_and!.
  - unfold TreeNode.count at 1. rewrite Hperm. lia.
  - by rewrite Hperm.
  - rewrite (dense_perm _ _ _ Hperm). split.
    + intros Hd.
      assert (Hin : ordering r ∈ seqZ 0 n) by (rewrite <- Hbefore; left).
      apply elem_of_seqZ in Hin.
      destruct (decide (ordering r = n - 1)) as [|Hne]; [done|]. exfalso.
      apply Hfresh. rewrite Hd. apply elem_of_seqZ. lia.
    + intros Hlast. rewrite Hrest, Hlast, Hn.
      replace (Z.of_nat (S (length rest)) - 1) with (Z.of_nat (length rest)) by lia.
      by rewrite filter_ne_last.
Qed.

(** X13: a MoveNode to another parent keeps the group it moves into
    dense, and does not renumber the group it leaves: that group keeps
    its other orderings, so it stays dense exactly when the node was its
    last child.  Groups of other parents keep their density. *)
Theorem MoveNode_density (fuel : nat) (db db' : Store) (nodeId newParentId : Z)
    (v : JsValue) (r : Row) :
  key_of v = Some newParentId →
  MoveNode fuel nodeId v db = Some (Moved, db') →
  rows db !! nodeId = Some r →
  parent_node_id r ≠ Some newParentId →
  (dense db (Some newParentId) → dense db' (Some newParentId)) ∧
  (dense db (parent_node_id r) →
   let n := TreeNode.count (parent_node_id r) db in
   TreeNode.count (parent_node_id r) db' = n - 1 ∧
   (λ m : TreeNode, ordering m.2) <$> TreeNode.findAll (parent_node_id r) db'
     ≡ₚ filter (λ o, o ≠ ordering r) (seqZ 0 n) ∧
   (dense db' (parent_node_id r) ↔ ordering r = n - 1)) ∧
  (∀ q, q ≠ Some newParentId → q ≠ parent_node_id r →
        (dense db q ↔ dense db' q)).
Proof.
  intros Hv (r0 & np & Hroot & Hr0 & Hv' & Hp & ->)%MoveNode_Moved_inv Hr Hne.
  assert (r0 = r) as -> by congruence.
  assert (np = newParentId) as -> by congruence.
  set (r' := mkRow (title r) (Some newParentId) (TreeNode.count (Some newParentId) db)).
  assert (Hafter : ∀ q, TreeNode.findAll q (mkStore (<[nodeId := r']> (rows db)) (sequence db))
            ≡ₚ filter (λ n : TreeNode, parent_node_id n.2 = q) [(nodeId, r')]
               ++ TreeNode.findAll q (TreeNode.destroy nodeId db))
    by (intros q; apply findAll_overwrite).
  assert (Hbefore : ∀ q, TreeNode.findAll q db
            ≡ₚ filter (λ n : TreeNode, parent_node_id n.2 = q) [(nodeId, r)]
               ++ TreeNode.findAll q (TreeNode.destroy nodeId db))
    by (intros q; by apply findAll_split).
  split_and!.
  - pose proof (Hafter (Some newParentId)) as Ha.
    pose proof (Hbefore (Some newParentId)) as Hb.
    rewrite filter_cons, decide_True, filter_nil in Ha by done.
    rewrite filter_cons, decide_False, filter_nil in Hb by done.
    simpl in Ha, Hb. rewrite <- Hb in Ha.
    intros Hdense. eapply dense_gain; [exact Ha | done | done].
  - intros Hdense. apply (dense_lose db _ nodeId r); [done | done |].
    rewrite Hafter. rewrite filter_cons, decide_False, filter_nil; [done|].
    simpl. congruence.
  - intros q Hq1 Hq2.
    pose proof (Hafter q) as Ha. pose proof (Hbefore q) as Hb.
    rewrite filter_cons, decide_False, filter_nil in Ha by (simpl; congruence).
    rewrite filter_cons, decide_False, filter_nil in Hb by (simpl; congruence).
    simpl in Ha, Hb. rewrite (dense_perm _ _ _ Ha), (dense_perm _ _ _ Hb). done.
Qed.

Lemma MoveNode_density_witness :
  dense root_A_B_C (Some 2) ∧
  dense root_A_B_C (Some 1) ∧
  ∃ db', MoveNode 4 3 (JsNumber 2) root_A_B_C = Some (Moved, db') ∧
         dense db' (Some 2) ∧ dense db' (Some 1).
Proof.
  assert (H2 : dense root_A_B_C (Some 2)).
  { apply (bool_decide_unpack _). vm_compute. exact I. }
  assert (H1 : dense root_A_B_C (Some 1)).
  { apply (bool_decide_unpack _). vm_compute. exact I. }
  split; [exact H2|]. split; [exact H1|]. eexists. split; [reflexivity|].
  destruct (MoveNode_density 4 root_A_B_C _ 3 2 (JsNumber 2) (mkRow "B" (Some 1) 1)
              eq_refl eq_refl eq_refl)
    as (Hin & Hout & _); [discriminate|].
  split; [exact (Hin H2)|].
  destruct (Hout H1) as (_ & _ & Hiff). apply Hiff. reflexivity.
Defined.

(** In a tree no sibling of a row is below the row. *)
Lemma sibling_not_descendant db k r x rx :
  tree_wf db →
  rows db !! k = Some r → rows db !! x = Some rx →
  parent_node_id rx = parent_node_id r → x ≠ k →
  ¬ descendant_or_self db k x.
Proof.
  intros Hwf Hk Hx Hpar Hne Hdos.
  inversion Hdos as [|x' rx' p Hx' Hp Hdos']; subst; [done|].
  assert (rx' = rx) as -> by congruence.
  destruct (Hwf _ _ Hk) as [d Hd].
  apply (parent_not_descendant db k r p d Hk); [congruence | exact Hd | exact Hdos'].
Qed.

(** In a tree DeleteNode on an id other than 1 answers, with every
    recursion budget from some budget on, and has removed the id and what
    is below it. *)
Lemma DeleteNode_in_tree (db : Store) (nodeId : Z) :
  tree_wf db →
  nodeId ≠ 1 →
  ∃ db',
    (∃ N, ∀ fuel, (N ≤ fuel)%nat → DeleteNode fuel nodeId db = Some (Deleted, db')) ∧
    removes db db' (descendant_or_self db nodeId).
Proof.
  intros Hwf Hroot.
  destruct (tree_wf_ranked db Hwf) as [rank Hrank].
  destruct (deleteNodeAndDescendants_removes rank (S (rank nodeId)) nodeId db Hrank)
    as (db' & Hrun & Hrem); [lia|].
  exists db'. split; [|done].
  exists (S (rank nodeId)). intros fuel Hf. unfold DeleteNode.
  rewrite decide_False by done.
  destruct (deleteNodeAndDescendants_removes rank fuel nodeId db Hrank)
    as (db'' & Hrun' & Hrem'); [lia|].
  rewrite Hrun'. simpl. do 2 f_equal. by eapply removes_unique.
Qed.

(** X14: DeleteNode does not renumber the siblings of the deleted
    node: in a tree, DeleteNode on a node other than the root whose group
    is dense with [n] rows answers 200, and the group afterwards has [n-1]
    rows with the orderings 0..n-1 without the node's, so it is dense only
    when the node was the last child. *)
Theorem DeleteNode_leaves_gap (db : Store) (nodeId : Z) (r : Row) :
  tree_wf db →
  nodeId ≠ 1 →
  rows db !! nodeId = Some r →
  dense db (parent_node_id r) →
  let n := TreeNode.count (parent_node_id r) db in
  ∃ db',
    (∃ N, ∀ fuel, (N ≤ fuel)%nat → DeleteNode fuel nodeId db = Some (Deleted, db')) ∧
    TreeNode.count (parent_node_id r) db' = n - 1 ∧
    (λ m : TreeNode, ordering m.2) <$> TreeNode.findAll (parent_node_id r) db'
      ≡ₚ filter (λ o, o ≠ ordering r) (seqZ 0 n) ∧
    (dense db' (parent_node_id r) ↔ ordering r = n - 1).
Proof.
  intros Hwf Hroot Hr Hdense n.
  destruct (DeleteNode_in_tree db nodeId Hwf Hroot) as (t & Hrun & E).
  exists t. split; [exact Hrun|].
  apply (dense_lose db t nodeId r); [done | done |].
  apply NoDup_Permutation; [apply NoDup_findAll | apply NoDup_findAll |].
  intros [x rx]. rewrite !elem_of_findAll. simpl.
  destruct E as (Hsub & _ & Hgone & Hwhy). split.
  - intros [Hx Hp]. split; [|done].
    apply lookup_delete_Some. split; [|by eapply lookup_weaken].
    intros <-. rewrite Hgone in Hx; [done | apply dos_self].
  - intros [[Hne Hx]%lookup_delete_Some Hp]. split; [|done].
    destruct (rows t !! x) as [rx'|] eqn:Htx.
    + pose proof (lookup_weaken _ _ _ _ Htx Hsub). congruence.
    + exfalso. eapply (sibling_not_descendant db nodeId r x rx); [done..| |].
      * by intros ->.
      * apply Hwhy; [by eexists | done].
Qed.

Lemma DeleteNode_leaves_gap_witness :
  tree_wf root_A_B ∧
  dense root_A_B (Some 1) ∧
  ∃ db',
    (∃ N, ∀ fuel, (N ≤ fuel)%nat → DeleteNode fuel 2 root_A_B = Some (Deleted, db')) ∧
    TreeNode.count (Some 1) db' = 1 ∧ ¬ dense db' (Some 1).
Proof.
  assert (Hwf : tree_wf root_A_B) by (apply tree_wfb_sound; vm_compute; reflexivity).
  assert (Hdense : dense root_A_B (Some 1)).
  { apply (bool_decide_unpack _). vm_compute. exact I. }
  split; [exact Hwf|]. split; [exact Hdense|].
  destruct (DeleteNode_leaves_gap root_A_B 2 (mkRow "A" (Some 1) 0)
              Hwf ltac:(lia) eq_refl Hdense) as (db' & Hrun & Hcount & _ & Hiff).
  exists db'. split; [exact Hrun|]. split; [exact Hcount|].
  intros Hd. apply Hiff in Hd. discriminate Hd.
Defined.

(** X15: in a tree, DeleteNode on an id without row, other than 1,
    answers 200 with the message of a deletion and leaves the table as it
    is, for every positive recursion budget. *)
Theorem DeleteNode_missing_in_tree (fuel : nat) (db : Store) (nodeId : Z) :
  tree_wf db →
  nodeId ≠ 1 →
  rows db !! nodeId = None →
  DeleteNode (S fuel) nodeId db = Some (Deleted, db).
Proof.
  intros Hwf Hroot Hnone. unfold DeleteNode. rewrite decide_False by done. simpl.
  assert (Hnil : TreeNode.findAll (Some nodeId) db = []).
  { destruct (TreeNode.findAll (Some nodeId) db) as [|[x rx] l] eqn:E; [done|].
    exfalso.
    assert (Hin : (x, rx) ∈ TreeNode.findAll (Some nodeId) db) by (rewrite E; left).
    apply elem_of_findAll in Hin as [Hx Hp]. simpl in Hx, Hp.
    destruct (Hwf _ _ Hx) as [d Hd].
    inversion Hd as [|x' rx' d' Hx' Hd']; subst.
    assert (rx' = rx) as -> by congruence. rewrite Hp in Hd'.
    inversion Hd'; subst. congruence. }
  rewrite Hnil. simpl. do 2 f_equal.
  destruct db as [m q]. unfold TreeNode.destroy. simpl in *. f_equal.
  by apply delete_id.
Qed.

Lemma DeleteNode_missing_in_tree_witness :
  tree_wf root_A_B_C ∧
  DeleteNode 1 7 root_A_B_C = Some (Deleted, root_A_B_C).
Proof.
  assert (Hwf : tree_wf root_A_B_C) by (apply tree_wfb_sound; vm_compute; reflexivity).
  split; [exact Hwf|].
  apply (DeleteNode_missing_in_tree 0 root_A_B_C 7 Hwf); [lia | reflexivity].
Defined.

(** ** ReorderNode there and back *)

Lemma dense_renumber p db (l : list TreeNode) :
  l ≡ₚ TreeNode.findAll p db → dense (renumber 0 l db) p.
Proof.
  intros Hl. apply (dense_perm _ _ _ (findAll_renumber p db l Hl)).
  rewrite renumbered_orderings. unfold renumbered. by rewrite length_imap.
Qed.

Lemma reinsert_ids (ids : list Z) (i j : nat) (x : Z) :
  ids !! i = Some x → (j < length ids)%nat →
  let there := take j (delete i ids) ++ x :: drop j (delete i ids) in
  take i (delete j there) ++ x :: drop i (delete j there) = ids.
Proof.
  intros Hi Hj there.
  pose proof (lookup_lt_Some _ _ _ Hi) as Hlt.
  assert (Hlen : length (delete i ids) = pred (length ids)).
  { rewrite length_delete by (by eexists). lia. }
  assert (Hback : delete j there = delete i ids).
  { unfold there.
    rewrite <- (length_take_le (delete i ids) j) at 1 by lia.
    rewrite delete_middle. apply take_drop. }
  rewrite Hback. by apply delete_reinsert.
Qed.

(** X16: for a node in a dense group, a ReorderNode to any position
    in the range followed by a ReorderNode back to the ordering the node
    had gives the table there was: every sibling has its former
    ordering. *)
Theorem ReorderNode_round_trip (db : Store) (nodeId new_ordering : Z) (r : Row) :
  rows db !! nodeId = Some r →
  dense db (parent_node_id r) →
  0 ≤ new_ordering < TreeNode.count (parent_node_id r) db →
  ReorderNode nodeId (ordering r) (ReorderNode nodeId new_ordering db).2
  = (Reordered, db).
Proof.
  intros Hr Hdense Hnew.
  set (p := parent_node_id r).
  destruct (ordered_dense_self _ _ _ Hr Hdense) as [Hord Hself].
  pose proof (ReorderNode_run db nodeId new_ordering r Hr Hdense Hnew) as Hrun0.
  cbv zeta in Hrun0. fold p in Hrun0, Hself.
  set (before := TreeNode.findAll_ordered p db) in Hrun0, Hself.
  set (result := take (Z.to_nat new_ordering) (delete (Z.to_nat (ordering r)) before)
                 ++ (nodeId, r)
                 :: drop (Z.to_nat new_ordering) (delete (Z.to_nat (ordering r)) before))
    in Hrun0.
  destruct Hrun0 as (Hrun & _ & Hat & Hperm).
  rewrite Hrun. simpl. set (db1 := renumber 0 result db).
  assert (Hnd : NoDup (id <$> result)) by (rewrite Hperm; apply NoDup_findAll_ids).
  destruct (renumber_spec result 0 db Hnd) as (Hseq1 & Hin1 & Hout1).
  fold db1 in Hseq1, Hin1, Hout1.
  set (r1 := set_ordering new_ordering r).
  assert (Hr1 : rows db1 !! nodeId = Some r1).
  { pose proof (Hin1 _ _ Hat) as H. unfold id in H. simpl in H.
    rewrite H, Hr. simpl. unfold r1. f_equal. f_equal. lia. }
  assert (Hdense1 : dense db1 (parent_node_id r1)) by (by apply dense_renumber).
  assert (Hcount1 : TreeNode.count (parent_node_id r1) db1 = TreeNode.count p db).
  { change (parent_node_id r1) with p. unfold TreeNode.count, db1.
    rewrite (findAll_renumber p db result Hperm).
    unfold renumbered. by rewrite length_imap, Hperm. }
  assert (Hback : 0 ≤ ordering r < TreeNode.count (parent_node_id r1) db1)
    by (by rewrite Hcount1).
  pose proof (ReorderNode_run db1 nodeId (ordering r) r1 Hr1 Hdense1 Hback) as Hrun0.
  cbv zeta in Hrun0. change (parent_node_id r1) with p in Hrun0.
  assert (Hsorted1 : TreeNode.findAll_ordered p db1 = renumbered result)
    by (by apply findAll_ordered_renumber).
  rewrite !Hsorted1 in Hrun0.
  set (result1 := take (Z.to_nat (ordering r))
                    (delete (Z.to_nat (ordering r1)) (renumbered result))
                  ++ (nodeId, r1)
                  :: drop (Z.to_nat (ordering r))
                       (delete (Z.to_nat (ordering r1)) (renumbered result))) in Hrun0.
  destruct Hrun0 as (Hrun2 & _ & _ & Hperm2).
  rewrite Hrun2. f_equal.
  assert (Hlen : Z.of_nat (length before) = TreeNode.count p db)
    by apply length_findAll_ordered.
  assert (Hids : id <$> result1 = id <$> before).
  { unfold result1. rewrite fmap_app, fmap_cons, fmap_take, fmap_drop.
    rewrite list_fmap_delete, renumbered_ids.
    unfold result. rewrite fmap_app, fmap_cons, fmap_take, fmap_drop.
    rewrite list_fmap_delete. unfold id at 1 3. simpl.
    replace (Z.to_nat (ordering r1)) with (Z.to_nat new_ordering) by done.
    apply reinsert_ids; [by rewrite list_lookup_fmap, Hself|].
    rewrite length_fmap. fold p in Hnew. lia. }
  assert (Hnd1 : NoDup (id <$> result1)).
  { rewrite Hids. unfold before. rewrite findAll_ordered_perm.
    apply NoDup_findAll_ids. }
  destruct (renumber_spec result1 0 db1 Hnd1) as (Hseq2 & Hin2 & Hout2).
  destruct (renumber 0 result1 db1) as [m2 q2] eqn:E2, db as [m0 q0] eqn:E0.
  simpl in Hseq2, Hin2, Hout2. f_equal; [|by rewrite Hseq2, Hseq1].
  apply map_eq. intros x.
  destruct (decide (x ∈ id <$> before)) as [Hx | Hx].
  - apply list_elem_of_fmap in Hx as (n & -> & Hn).
    apply list_elem_of_lookup in Hn as [j Hj].
    assert (Hj1 : ∃ n1, result1 !! j = Some n1 ∧ id n1 = id n).
    { assert (H : (id <$> result1) !! j = Some (id n))
        by (by rewrite Hids, list_lookup_fmap, Hj).
      rewrite list_lookup_fmap in H.
      destruct (result1 !! j) as [n1|]; [|done]. simpl in H.
      injection H as H. by exists n1. }
    destruct Hj1 as (n1 & Hn1 & Heq). rewrite <- Heq.
    rewrite (Hin2 _ _ Hn1). rewrite Heq.
    destruct (renumber_rows result 0 (mkStore m0 q0) (id n)) as [o Ho].
    fold db1 in Ho. rewrite Ho.
    assert (Hrow : n ∈ TreeNode.findAll p (mkStore m0 q0)).
    { rewrite <- findAll_ordered_perm. by eapply list_elem_of_lookup_2. }
    apply elem_of_findAll in Hrow as [Hrow _]. simpl in Hrow |- *.
    unfold id. rewrite Hrow. simpl. f_equal.
    rewrite set_ordering_twice.
    rewrite <- (ordered_dense_lookup _ _ _ _ Hdense Hj). apply set_ordering_id.
  - rewrite Hout2 by (by rewrite Hids).
    apply Hout1. intros Hx'. apply Hx.
    rewrite Hperm in Hx'. unfold before. by rewrite findAll_ordered_perm.
Qed.

Lemma ReorderNode_round_trip_witness :
  dense root_A_B (Some 1) ∧
  ReorderNode 2 0 (ReorderNode 2 1 root_A_B).2 = (Reordered, root_A_B).
Proof.
  assert (Hdense : dense root_A_B (Some 1)).
  { apply (bool_decide_unpack _). vm_compute. exact I. }
  split; [exact Hdense|].
  apply (ReorderNode_round_trip root_A_B 2 1 (mkRow "A" (Some 1) 0) eq_refl Hdense).
  vm_compute. split; [discriminate | reflexivity].
Defined.

(** ** InsertNode followed by GetNode or DeleteNode *)

Lemma Sorted_seqZ_lt m n : Sorted Z.lt (seqZ m n).
Proof.
  remember (Z.to_nat n) as k eqn:Hk. revert m n Hk.
  induction k as [|k IH]; intros m n Hk.
  - unfold seqZ. rewrite <- Hk. constructor.
  - rewrite seqZ_cons by lia. constructor; [apply IH; lia|].
    destruct (decide (0 < Z.pred n)) as [Hpos|Hneg].
    + rewrite seqZ_cons by done. constructor. lia.
    + unfold seqZ. replace (Z.to_nat (Z.pred n)) with 0%nat by lia. constructor.
Qed.

Lemma Sorted_by_ordering (l : list TreeNode) :
  Sorted Z.lt ((λ n : TreeNode, ordering n.2) <$> l) → Sorted TreeNode.by_ordering l.
Proof.
  induction l as [|a l IH]; [constructor|].
  rewrite fmap_cons. intros [Hl Hhd]%Sorted_inv. constructor; [by apply IH|].
  destruct l as [|b l]; constructor. inversion Hhd; subst. by left.
Qed.

Lemma NoDup_fmap_eq {A B} (f : A → B) (l : list A) x y :
  NoDup (f <$> l) → x ∈ l → y ∈ l → f x = f y → x = y.
Proof.
  induction l as [|a l IH]; [by intros _ ?%elem_of_nil|].
  rewrite fmap_cons. intros [Ha Hl]%NoDup_cons.
  intros [-> | Hx]%elem_of_cons [-> | Hy]%elem_of_cons Heq; [done | | |by apply IH].
  - exfalso. apply Ha. rewrite Heq. by apply list_elem_of_fmap_2.
  - exfalso. apply Ha. rewrite <- Heq. by apply list_elem_of_fmap_2.
Qed.

(** In a tree no row names an id without row as its parent. *)
Lemma no_child_of_missing db k x rx :
  tree_wf db → rows db !! k = None → rows db !! x = Some rx →
  parent_node_id rx ≠ Some k.
Proof.
  intros Hwf Hk Hx Hp. destruct (Hwf _ _ Hx) as [d Hd].
  inversion Hd as [|x' rx' d' Hx' Hd']; subst.
  assert (rx' = rx) as -> by congruence. rewrite Hp in Hd'.
  inversion Hd'; subst. congruence.
Qed.

Lemma findAll_nil p db :
  (∀ x rx, rows db !! x = Some rx → parent_node_id rx ≠ p) →
  TreeNode.findAll p db = [].
Proof.
  intros Hno. destruct (TreeNode.findAll p db) as [|[x rx] l] eqn:E; [done|].
  exfalso.
  assert (Hin : (x, rx) ∈ TreeNode.findAll p db) by (rewrite E; left).
  apply elem_of_findAll in Hin as [Hx Hp]. by eapply Hno.
Qed.

(** X17: after InsertNode under a parent whose children are dense,
    GetNode on the parent lists the children there were, in their order,
    followed by the new node; in a tree GetNode on the new key gives the
    new node without children. *)
Theorem InsertNode_then_GetNode (parentId : Z) (t : string) (db : Store) (rp : Row) :
  rows db !! parentId = Some rp →
  dense db (Some parentId) →
  let new : TreeNode :=
    (TreeNode.next_rowid db,
     mkRow t (Some parentId) (TreeNode.count (Some parentId) db)) in
  let db1 := (InsertNode parentId t db).2 in
  GetNode parentId db1
  = mkResponse 200
      (NodeChildrenBody (parentId, rp)
         (TreeNode.findAll_ordered (Some parentId) db ++ [new])) ∧
  (tree_wf db → GetNode (id new) db1 = mkResponse 200 (NodeChildrenBody new [])).
Proof.
  intros Hp Hdense new db1.
  pose proof (next_rowid_fresh db) as Hfresh.
  assert (Hne : parentId ≠ TreeNode.next_rowid db) by (intros Heq; congruence).
  assert (Hdb1 : db1 = mkStore (<[new.1 := new.2]> (rows db)) new.1).
  { unfold db1, InsertNode, TreeNode.findByPk, TreeNode.create. by rewrite Hp. }
  split.
  - assert (Hrow : rows db1 !! parentId = Some rp).
    { rewrite Hdb1. simpl. by rewrite lookup_insert_ne. }
    unfold GetNode, TreeNode.findByPk. rewrite Hrow. simpl. do 2 f_equal.
    set (before := TreeNode.findAll_ordered (Some parentId) db).
    assert (Hperm : TreeNode.findAll_ordered (Some parentId) db1 ≡ₚ before ++ [new]).
    { rewrite findAll_ordered_perm, Hdb1.
      rewrite (findAll_insert_fresh (Some parentId) new.1 new.2 db new.1 Hfresh).
      rewrite filter_cons, decide_True, filter_nil by done. simpl.
      unfold before. rewrite findAll_ordered_perm. apply Permutation_cons_append. }
    assert (Hords : (λ n : TreeNode, ordering n.2) <$> (before ++ [new])
                    = seqZ 0 (Z.of_nat (S (length (TreeNode.findAll (Some parentId) db))))).
    { rewrite fmap_app, seqZ_S. unfold before. by rewrite (ordered_dense _ _ Hdense). }
    apply (Sorted_unique_strong TreeNode.by_ordering).
    + intros x1 x2 Hx1 Hx2 H12 H21. rewrite Hperm in Hx1.
      apply (NoDup_fmap_eq (λ n : TreeNode, ordering n.2) (before ++ [new])); [|done..|].
      * rewrite Hords. apply NoDup_seqZ.
      * unfold TreeNode.by_ordering in H12, H21. lia.
    + apply (Sorted_merge_sort TreeNode.by_ordering).
    + apply Sorted_by_ordering. rewrite Hords. apply Sorted_seqZ_lt.
    + exact Hperm.
  - intros Hwf.
    assert (Hrow : rows db1 !! id new = Some new.2).
    { rewrite Hdb1. simpl. by rewrite lookup_insert_eq. }
    unfold GetNode, TreeNode.findByPk. rewrite Hrow. simpl. do 2 f_equal.
    unfold TreeNode.findAll_ordered. rewrite findAll_nil; [done|].
    intros x rx Hx Hpar. rewrite Hdb1 in Hx. simpl in Hx.
    destruct (decide (x = TreeNode.next_rowid db)) as [-> | Hx'].
    + rewrite lookup_insert_eq in Hx. injection Hx as <-. simpl in Hpar. congruence.
    + rewrite lookup_insert_ne in Hx by done.
      by eapply (no_child_of_missing db (TreeNode.next_rowid db)).
Qed.

Lemma InsertNode_then_GetNode_witness :
  dense root_A_B (Some 1) ∧
  GetNode 1 (InsertNode 1 "C" root_A_B).2
  = mkResponse 200
      (NodeChildrenBody (1, root_row)
         [(2, mkRow "A" (Some 1) 0); (3, mkRow "B" (Some 1) 1);
          (4, mkRow "C" (Some 1) 2)]).
Proof.
  assert (Hdense : dense root_A_B (Some 1)).
  { apply (bool_decide_unpack _). vm_compute. exact I. }
  split; [exact Hdense|].
  destruct (InsertNode_then_GetNode 1 "C" root_A_B root_row eq_refl Hdense) as [Hget _].
  exact Hget.
Defined.

(** X18: in a tree with a root row, an InsertNode followed by a
    DeleteNode of the new key gives back the rows there were; only the
    counter has advanced, so the next InsertNode gets the key after the
    deleted one, not the deleted key again. *)
Theorem InsertNode_then_DeleteNode (parentId : Z) (t : string) (db : Store)
    (fuel : nat) :
  tree_wf db →
  is_Some (rows db !! 1) →
  is_Some (rows db !! parentId) →
  let k := TreeNode.next_rowid db in
  let db2 := mkStore (rows db) k in
  DeleteNode (S fuel) k (InsertNode parentId t db).2 = Some (Deleted, db2) ∧
  TreeNode.next_rowid db2 = k + 1.
Proof.
  intros Hwf [r1 H1] [rp Hp] k db2.
  pose proof (next_rowid_fresh db) as Hfresh. fold k in Hfresh.
  assert (Hk1 : k ≠ 1) by (intros Heq; rewrite Heq in Hfresh; congruence).
  assert (Hkp : parentId ≠ k) by (intros Heq; rewrite <- Heq in Hfresh; congruence).
  split.
  - unfold InsertNode, TreeNode.findByPk, TreeNode.create. rewrite Hp. simpl.
    fold k. unfold DeleteNode. rewrite decide_False by done. simpl.
    rewrite findAll_nil.
    + simpl. unfold TreeNode.destroy, db2. simpl. by rewrite delete_insert_id.
    + intros x rx Hx Hpar. simpl in Hx.
      destruct (decide (x = k)) as [-> | Hx'].
      * rewrite lookup_insert_eq in Hx. injection Hx as <-. simpl in Hpar. congruence.
      * rewrite lookup_insert_ne in Hx by done.
        by eapply (no_child_of_missing db k).
  - unfold TreeNode.next_rowid at 1. simpl.
    subst k. unfold TreeNode.next_rowid. lia.
Qed.

Lemma InsertNode_then_DeleteNode_witness :
  tree_wf root_A_B ∧
  DeleteNode 1 4 (InsertNode 1 "C" root_A_B).2
  = Some (Deleted, mkStore (rows root_A_B) 4) ∧
  TreeNode.next_rowid (mkStore (rows root_A_B) 4) = 5.
Proof.
  assert (Hwf : tree_wf root_A_B) by (apply tree_wfb_sound; vm_compute; reflexivity).
  split; [exact Hwf|].
  exact (InsertNode_then_DeleteNode 1 "C" root_A_B 0 Hwf
           ltac:(eexists; reflexivity) ltac:(eexists; reflexivity)).
Defined.

(** ** ReorderNode after a gap *)

Lemma delete_out_of_range {A} (l : list A) i : (length l ≤ i)%nat → delete i l = l.
Proof.
  revert i. induction l as [|a l IH]; intros i Hi; [by destruct i|].
  destruct i as [|i]; simpl in *; [lia|]. f_equal. apply IH. lia.
Qed.

Lemma renumber_app (l1 l2 : list TreeNode) :
  ∀ i db, renumber i (l1 ++ l2) db
          = renumber (i + length l1) l2 (renumber i l1 db).
Proof.
  induction l1 as [|n l1 IH]; intros i db; simpl.
  - by rewrite Nat.add_0_r.
  - rewrite IH. by replace (S i + length l1)%nat with (i + S (length l1))%nat by lia.
Qed.

(** The last write to a key is the one that stays. *)
Lemma renumber_last (l1 l2 : list TreeNode) (n : TreeNode) i db :
  id n ∉ id <$> l2 →
  rows (renumber i (l1 ++ n :: l2) db) !! id n
  = set_ordering (Z.of_nat (i + length l1)) <$> rows db !! id n.
Proof.
  intros Hn. rewrite renumber_app. simpl. rewrite renumber_out by done. simpl.
  rewrite lookup_alter_eq. destruct (renumber_rows l1 i db (id n)) as [o ->].
  by destruct (rows db !! id n).
Qed.

(** The ascending list of a group has its rows in ascending ordering,
    rows with the same ordering in ascending key. *)
Lemma findAll_ordered_key_order q db i i' (a b : TreeNode) :
  (i < i')%nat →
  TreeNode.findAll_ordered q db !! i = Some a →
  TreeNode.findAll_ordered q db !! i' = Some b →
  ordering a.2 < ordering b.2 ∨ (ordering a.2 = ordering b.2 ∧ a.1 < b.1).
Proof.
  intros Hii Ha Hb.
  pose proof (Sorted_merge_sort TreeNode.by_ordering (TreeNode.findAll q db)) as Hs.
  apply Sorted_StronglySorted in Hs; [|apply _].
  fold (TreeNode.findAll_ordered q db) in Hs.
  assert (Hnd : NoDup (id <$> TreeNode.findAll_ordered q db)).
  { rewrite findAll_ordered_perm. apply NoDup_findAll_ids. }
  assert (Hne : a.1 ≠ b.1).
  { intros Heq. assert (i = i'); [|lia].
    apply (NoDup_lookup _ _ _ (id a) Hnd); rewrite list_lookup_fmap.
    - by rewrite Ha.
    - rewrite Hb. simpl. unfold id. by rewrite Heq. }
  assert (Hab : TreeNode.by_ordering a b).
  { revert i i' Hii Ha Hb. clear Hnd Hne.
    induction Hs as [|x l Hl IH Hx]; intros i i' Hii Ha Hb; [done|].
    destruct i' as [|i']; [lia|]. simpl in Hb.
    destruct i as [|i]; simpl in Ha.
    - injection Ha as ->. rewrite Forall_forall in Hx. apply Hx.
      by eapply list_elem_of_lookup_2.
    - apply (IH i i'); [lia | done..]. }
  unfold TreeNode.by_ordering in Hab. lia.
Qed.

(** X19: when the ordering of the node is not an index of its sibling
    list (the list has [n] rows and the ordering is [n] or more, as after
    the deletion of an earlier sibling), a ReorderNode within the range
    answers 200 but takes nothing out of the list, so the node is written
    twice and keeps the later index: with the node at position [j] of the
    list, its ordering afterwards is [j+1] when the new ordering is at
    most [j], and the new ordering otherwise.  The list is in ascending
    ordering, rows with the same ordering in ascending key: on the table
    [tied] it is B(3), D(5), and ReorderNode(3, 0) leaves B with ordering
    1 and D with ordering 2. *)
Theorem ReorderNode_after_gap (db : Store) (nodeId new_ordering : Z) (r : Row)
    (j : nat) :
  rows db !! nodeId = Some r →
  TreeNode.count (parent_node_id r) db ≤ ordering r →
  0 ≤ new_ordering < TreeNode.count (parent_node_id r) db →
  TreeNode.findAll_ordered (parent_node_id r) db !! j = Some (nodeId, r) →
  ((ReorderNode nodeId new_ordering db).1 = Reordered ∧
   ordering_of (ReorderNode nodeId new_ordering db).2 nodeId
   = Some (if decide (Z.to_nat new_ordering ≤ j)%nat
           then Z.of_nat j + 1 else new_ordering)) ∧
  (∀ i i' a b,
     (i < i')%nat →
     TreeNode.findAll_ordered (parent_node_id r) db !! i = Some a →
     TreeNode.findAll_ordered (parent_node_id r) db !! i' = Some b →
     ordering a.2 < ordering b.2 ∨ (ordering a.2 = ordering b.2 ∧ a.1 < b.1)) ∧
  (TreeNode.findAll_ordered (Some 1) tied
   = [(3, mkRow "B" (Some 1) 2); (5, mkRow "D" (Some 1) 2)] ∧
   ReorderNode 3 0 tied
   = (Reordered, mkStore (<[3 := mkRow "B" (Some 1) 1]> (rows tied)) 5)).
Proof.
  intros Hr Hgap Hnew Hj.
  split; [|split; [apply findAll_ordered_key_order
                  | split; vm_compute; reflexivity]].
  set (before := TreeNode.findAll_ordered (parent_node_id r) db) in *.
  pose proof (length_findAll_ordered (parent_node_id r) db) as Hlen.
  fold before in Hlen.
  pose proof (lookup_lt_Some _ _ _ Hj) as Hjlt.
  assert (Hnd : NoDup (id <$> before)).
  { unfold before. rewrite findAll_ordered_perm. apply NoDup_findAll_ids. }
  unfold ReorderNode, TreeNode.findByPk. rewrite Hr. simpl. fold before.
  replace (new_ordering <? 0) with false by lia.
  replace (Z.of_nat (length before) <=? new_ordering) with false by lia.
  simpl. split; [done|].
  unfold splice_remove.
  rewrite delete_out_of_range
    by (unfold splice_start; destruct (ordering r <? 0) eqn:E; lia).
  unfold splice_insert. rewrite splice_start_in_range by lia.
  set (k := Z.to_nat new_ordering).
  unfold ordering_of.
  rewrite <- (take_drop k before) in Hnd.
  rewrite fmap_app in Hnd. apply NoDup_app in Hnd as (_ & Hdisj & Hnd2).
  case_decide as Hkj.
  - assert (Hd : drop k before !! (j - k)%nat = Some (nodeId, r)).
    { rewrite lookup_drop. by replace (k + (j - k))%nat with j by lia. }
    rewrite <- (take_drop_middle _ _ _ Hd) at 1.
    rewrite <- (take_drop_middle _ _ _ Hd) in Hnd2.
    rewrite fmap_app, fmap_cons in Hnd2.
    apply NoDup_app in Hnd2 as (_ & _ & [Hlast _]%NoDup_cons).
    replace (take k before ++ (nodeId, r)
             :: take (j - k) (drop k before)
                ++ (nodeId, r) :: drop (S (j - k)) (drop k before))
      with ((take k before ++ (nodeId, r) :: take (j - k) (drop k before))
            ++ (nodeId, r) :: drop (S (j - k)) (drop k before))
      by (by rewrite <- app_assoc).
    pose proof (renumber_last
                  (take k before ++ (nodeId, r) :: take (j - k) (drop k before))
                  (drop (S (j - k)) (drop k before)) (nodeId, r) 0 db Hlast) as Hw.
    change (id (nodeId, r)) with nodeId in Hw. rewrite Hw, Hr. simpl. f_equal.
    rewrite length_app. simpl. rewrite !length_take, length_drop. lia.
  - assert (Hin : id (nodeId, r) ∈ id <$> take k before).
    { apply list_elem_of_fmap_2. apply elem_of_take. exists j. split; [done | lia]. }
    pose proof (renumber_last (take k before) (drop k before) (nodeId, r) 0 db
                  (Hdisj _ Hin)) as Hw.
    change (id (nodeId, r)) with nodeId in Hw. rewrite Hw, Hr. simpl. f_equal.
    rewrite length_take. lia.
Qed.

Lemma ReorderNode_after_gap_witness :
  rows tied !! 3 = Some (mkRow "B" (Some 1) 2) ∧
  TreeNode.count (Some 1) tied = 2 ∧
  TreeNode.findAll_ordered (Some 1) tied !! 0%nat = Some (3, mkRow "B" (Some 1) 2) ∧
  ((ReorderNode 3 0 tied).1 = Reordered ∧
   ordering_of (ReorderNode 3 0 tied).2 3 = Some 1) ∧
  TreeNode.count (Some 1) root_B_gap = 1 ∧
  ((ReorderNode 3 0 root_B_gap).1 = Reordered ∧
   ordering_of (ReorderNode 3 0 root_B_gap).2 3 = Some 1).
Proof.
  split; [reflexivity|]. split; [reflexivity|]. split; [reflexivity|].
  split; [|split; [reflexivity|]].
  - exact (proj1 (ReorderNode_after_gap tied 3 0 (mkRow "B" (Some 1) 2) 0 eq_refl
                    ltac:(vm_compute; discriminate)
                    ltac:(vm_compute; split; [discriminate | reflexivity])
                    eq_refl)).
  - exact (proj1 (ReorderNode_after_gap root_B_gap 3 0 (mkRow "B" (Some 1) 1) 0 eq_refl
                    ltac:(vm_compute; discriminate)
                    ltac:(vm_compute; split; [discriminate | reflexivity])
                    eq_refl)).
Defined.

(** ** GetNode after a write *)

(** The ascending list of a group is the sorted list with the same rows,
    when no two of them share an ordering. *)
Lemma findAll_ordered_eq db q (l : list TreeNode) :
  TreeNode.findAll q db ≡ₚ l →
  Sorted TreeNode.by_ordering l →
  NoDup ((λ n : TreeNode, ordering n.2) <$> l) →
  TreeNode.findAll_ordered q db = l.
Proof.
  intros Hperm Hsorted Hnd.
  apply (Sorted_unique_strong TreeNode.by_ordering).
  - intros x1 x2 Hx1 Hx2 H12 H21. rewrite findAll_ordered_perm, Hperm in Hx1.
    apply (NoDup_fmap_eq (λ n : TreeNode, ordering n.2) l); [done..|].
    unfold TreeNode.by_ordering in H12, H21. lia.
  - apply (Sorted_merge_sort TreeNode.by_ordering).
  - done.
  - by rewrite findAll_ordered_perm.
Qed.

Lemma NoDup_ordered_dense db q :
  dense db q →
  NoDup ((λ n : TreeNode, ordering n.2) <$> TreeNode.findAll_ordered q db).
Proof. intros Hd. rewrite (ordered_dense _ _ Hd). apply NoDup_seqZ. Qed.

(** X20: after UpdateNode on a node with dense children, GetNode on
    the node gives the row with the new title, its parent and ordering as
    before, and the children it listed before. *)
Theorem UpdateNode_then_GetNode (nodeId : Z) (t : string) (db : Store) (r : Row) :
  rows db !! nodeId = Some r →
  parent_node_id r ≠ Some nodeId →
  dense db (Some nodeId) →
  GetNode nodeId (UpdateNode nodeId t db).2
  = mkResponse 200
      (NodeChildrenBody (nodeId, mkRow t (parent_node_id r) (ordering r))
         (TreeNode.findAll_ordered (Some nodeId) db)).
Proof.
  intros Hr Hself Hdense.
  unfold UpdateNode, TreeNode.findByPk. rewrite Hr. simpl.
  unfold TreeNode.save. simpl. rewrite (alter_lookup_Some _ _ r) by done.
  unfold GetNode, TreeNode.findByPk. simpl. rewrite lookup_insert_eq. simpl.
  do 2 f_equal. apply findAll_ordered_eq.
  - rewrite findAll_ordered_perm, findAll_overwrite.
    rewrite (findAll_split (Some nodeId) nodeId r db Hr).
    rewrite !filter_cons, !filter_nil.
    by rewrite !decide_False by done.
  - apply (Sorted_merge_sort TreeNode.by_ordering).
  - by apply NoDup_ordered_dense.
Qed.

Lemma UpdateNode_then_GetNode_witness :
  dense root_A_B_C (Some 2) ∧
  GetNode 2 (UpdateNode 2 "New" root_A_B_C).2
  = mkResponse 200
      (NodeChildrenBody (2, mkRow "New" (Some 1) 0) [(4, mkRow "C" (Some 2) 0)]).
Proof.
  assert (Hdense : dense root_A_B_C (Some 2)).
  { apply (bool_decide_unpack _). vm_compute. exact I. }
  split; [exact Hdense|].
  apply (UpdateNode_then_GetNode 2 "New" root_A_B_C (mkRow "A" (Some 1) 0) eq_refl);
    [discriminate | exact Hdense].
Defined.

Lemma MoveNode_Moved_check fuel (db db' : Store) (nodeId : Z) (v : JsValue) :
  MoveNode fuel nodeId v db = Some (Moved, db') →
  isDescendant fuel db v nodeId = Some (Returned false).
Proof.
  unfold MoveNode, TreeNode.findByValue, TreeNode.findByPk.
  destruct (rows db !! nodeId) as [r|]; simpl; [|intros [=]].
  destruct (key_of v) as [np|]; simpl; [|intros [=]].
  destruct (rows db !! np) as [rp|]; simpl; [|intros [=]].
  case_decide; [intros [=]|].
  by destruct (isDescendant fuel db v nodeId) as [[[|]|]|].
Qed.

(** X21: after a MoveNode to another parent whose children are dense,
    GetNode on that parent lists the children there were, in their order,
    followed by the moved node with its new parent and ordering.  The
    value of the body is a number, or any other value that the table
    reads as the key of the new parent and that is not read as the node's
    own id. *)
Theorem MoveNode_then_GetNode (fuel : nat) (db db' : Store) (nodeId newParentId : Z)
    (v : JsValue) (r rp : Row) :
  key_of v = Some newParentId →
  v ≠ JsOther (Some nodeId) →
  MoveNode fuel nodeId v db = Some (Moved, db') →
  rows db !! nodeId = Some r →
  rows db !! newParentId = Some rp →
  parent_node_id r ≠ Some newParentId →
  dense db (Some newParentId) →
  GetNode newParentId db'
  = mkResponse 200
      (NodeChildrenBody (newParentId, rp)
         (TreeNode.findAll_ordered (Some newParentId) db
          ++ [(nodeId, mkRow (title r) (Some newParentId)
                             (TreeNode.count (Some newParentId) db))])).
Proof.
  intros Hv Hvne Hrun Hr Hrp Hne Hdense.
  pose proof (MoveNode_Moved_check _ _ _ _ _ Hrun) as Hcheck.
  apply (isDescendant_false_inv_value _ _ _ _ newParentId) in Hcheck as [_ Hno];
    [|done..].
  assert (Hnp : newParentId ≠ nodeId).
  { intros ->. apply Hno, dos_self. }
  apply MoveNode_Moved_inv in Hrun as (r0 & np & _ & Hr0 & Hv' & _ & ->).
  assert (np = newParentId) as -> by congruence.
  assert (r0 = r) as -> by congruence.
  unfold GetNode, TreeNode.findByPk. simpl.
  rewrite lookup_insert_ne, Hrp by done. simpl. do 2 f_equal.
  set (before := TreeNode.findAll_ordered (Some newParentId) db).
  set (r' := mkRow (title r) (Some newParentId) (TreeNode.count (Some newParentId) db)).
  assert (Hords : (λ n : TreeNode, ordering n.2) <$> (before ++ [(nodeId, r')])
                  = seqZ 0 (Z.of_nat (S (length (TreeNode.findAll (Some newParentId) db))))).
  { rewrite fmap_app, seqZ_S. unfold before. by rewrite (ordered_dense _ _ Hdense). }
  apply findAll_ordered_eq.
  - rewrite findAll_overwrite.
    rewrite filter_cons, decide_True, filter_nil by done. simpl.
    rewrite <- Permutation_cons_append. apply Permutation_skip.
    unfold before. rewrite findAll_ordered_perm.
    rewrite (findAll_split (Some newParentId) nodeId r db Hr).
    by rewrite filter_cons, decide_False, filter_nil.
  - apply Sorted_by_ordering. rewrite Hords. apply Sorted_seqZ_lt.
  - rewrite Hords. apply NoDup_seqZ.
Qed.

Lemma MoveNode_then_GetNode_witness :
  dense root_A_B_C (Some 2) ∧
  ∃ db', MoveNode 4 3 (JsNumber 2) root_A_B_C = Some (Moved, db') ∧
         GetNode 2 db'
         = mkResponse 200
             (NodeChildrenBody (2, mkRow "A" (Some 1) 0)
                [(4, mkRow "C" (Some 2) 0); (3, mkRow "B" (Some 2) 1)]).
Proof.
  assert (Hdense : dense root_A_B_C (Some 2)).
  { apply (bool_decide_unpack _). vm_compute. exact I. }
  split; [exact Hdense|]. eexists. split; [reflexivity|].
  apply (MoveNode_then_GetNode 4 root_A_B_C _ 3 2 (JsNumber 2) (mkRow "B" (Some 1) 1)
           (mkRow "A" (Some 1) 0) eq_refl ltac:(discriminate) eq_refl eq_refl eq_refl);
    [discriminate | exact Hdense].
Defined.

Lemma Sorted_delete {A} (R : relation A) `{!Transitive R} (l : list A) j :
  Sorted R l → Sorted R (delete j l).
Proof.
  intros Hl%Sorted_StronglySorted; [|done]. apply StronglySorted_Sorted.
  revert j. induction Hl as [|a l Hl IH Ha]; intros j; [destruct j; constructor|].
  destruct j as [|j]; simpl; [done|].
  constructor; [apply IH | by apply Forall_delete].
Qed.

(** The rows of the node's group after the removal of the node's
    subtree, in a tree. *)
Lemma findAll_after_delete db t k r :
  tree_wf db →
  rows db !! k = Some r →
  removes db t (descendant_or_self db k) →
  TreeNode.findAll (parent_node_id r) t
    ≡ₚ TreeNode.findAll (parent_node_id r) (TreeNode.destroy k db).
Proof.
  intros Hwf Hr (Hsub & _ & Hgone & Hwhy).
  apply NoDup_Permutation; [apply NoDup_findAll | apply NoDup_findAll |].
  intros [x rx]. rewrite !elem_of_findAll. simpl. split.
  - intros [Hx Hp]. split; [|done].
    apply lookup_delete_Some. split; [|by eapply lookup_weaken].
    intros <-. rewrite Hgone in Hx; [done | apply dos_self].
  - intros [[Hne Hx]%lookup_delete_Some Hp]. split; [|done].
    destruct (rows t !! x) as [rx'|] eqn:Htx.
    + pose proof (lookup_weaken _ _ _ _ Htx Hsub). congruence.
    + exfalso. eapply (sibling_not_descendant db k r x rx); [done..| |].
      * by intros ->.
      * apply Hwhy; [by eexists | done].
Qed.

(** X22: in a tree, DeleteNode on a child, other than the id 1, of a
    parent with dense children answers 200, and GetNode on the parent
    afterwards lists the other children in the order and with the
    orderings they had; the deleted node's ordering is left out and
    nothing is renumbered. *)
Theorem DeleteNode_then_GetNode (db : Store) (nodeId parentId : Z) (r rp : Row) :
  tree_wf db →
  nodeId ≠ 1 →
  rows db !! nodeId = Some r →
  parent_node_id r = Some parentId →
  rows db !! parentId = Some rp →
  dense db (Some parentId) →
  ∃ db',
    (∃ N, ∀ fuel, (N ≤ fuel)%nat → DeleteNode fuel nodeId db = Some (Deleted, db')) ∧
    GetNode parentId db'
    = mkResponse 200
        (NodeChildrenBody (parentId, rp)
           (delete (Z.to_nat (ordering r))
                   (TreeNode.findAll_ordered (Some parentId) db))).
Proof.
  intros Hwf Hroot Hr Hpar Hrp Hdense.
  destruct (DeleteNode_in_tree db nodeId Hwf Hroot) as (t & Hrun & E).
  exists t. split; [exact Hrun|].
  destruct (Hwf _ _ Hr) as [d Hd].
  assert (Hkeep : rows t !! parentId = Some rp).
  { rewrite (removes_frame _ _ _ parentId E); [done|].
    by eapply parent_not_descendant. }
  unfold GetNode, TreeNode.findByPk. rewrite Hkeep. simpl. do 2 f_equal.
  rewrite <- Hpar in Hdense |- *.
  destruct (ordered_dense_self _ _ _ Hr Hdense) as [_ Hself].
  set (before := TreeNode.findAll_ordered (parent_node_id r) db) in *.
  apply findAll_ordered_eq.
  - rewrite (findAll_after_delete db t nodeId r Hwf Hr E).
    apply (Permutation_cons_inv (a := (nodeId, r))).
    pose proof (findAll_split (parent_node_id r) nodeId r db Hr) as Hsplit.
    rewrite filter_cons, decide_True, filter_nil in Hsplit by done.
    simpl in Hsplit. rewrite <- Hsplit. clear Hsplit.
    rewrite <- (findAll_ordered_perm (parent_node_id r) db). fold before.
    rewrite <- (take_drop_middle before _ _ Hself) at 1.
    rewrite delete_take_drop. by rewrite Permutation_middle.
  - apply Sorted_delete; [apply _|]. apply (Sorted_merge_sort TreeNode.by_ordering).
  - rewrite list_fmap_delete. eapply sublist_NoDup; [|apply sublist_delete].
    by apply NoDup_ordered_dense.
Qed.

Lemma DeleteNode_then_GetNode_witness :
  tree_wf root_A_B ∧
  dense root_A_B (Some 1) ∧
  ∃ db',
    (∃ N, ∀ fuel, (N ≤ fuel)%nat → DeleteNode fuel 2 root_A_B = Some (Deleted, db')) ∧
    GetNode 1 db'
    = mkResponse 200 (NodeChildrenBody (1, root_row) [(3, mkRow "B" (Some 1) 1)]).
Proof.
  assert (Hwf : tree_wf root_A_B) by (apply tree_wfb_sound; vm_compute; reflexivity).
  assert (Hdense : dense root_A_B (Some 1)).
  { apply (bool_decide_unpack _). vm_compute. exact I. }
  split; [exact Hwf|]. split; [exact Hdense|].
  exact (DeleteNode_then_GetNode root_A_B 2 1 (mkRow "A" (Some 1) 0) root_row
           Hwf ltac:(lia) eq_refl eq_refl eq_refl Hdense).
Defined.
